(** * useBacklinkRecommendations: the recommendation pipeline of WikiFlow

    A shallow embedding of the hook [useBacklinkRecommendations] and of its
    operation [getRecommendations]: source-article sampling, link fan-out,
    candidate merge, Fisher-Yates shuffle, summary resolution and the
    loading / error state around them. *)

From Stdlib Require Import ZArith QArith Qround.
From Stdlib Require DecimalString Qcanon.
From stdpp Require Import gmap strings list.

Local Open Scope Z_scope.

(** ** Data model *)

(** An entry of the visited history, as returned by [useVisitedArticles]. *)
Record VisitedArticle := {
  v_title : string;
  visitedAt : Z
}.

(** Modelled from the spec: the type [RecommendationItem] of
    [@/types/components] is not part of the sources at hand; the spec gives
    it as [{ title, displaytitle?, description?, extract?, thumbnail?, pageid? }].
    An absent optional field ([undefined]) is [None]. *)
Record RecommendationItem := {
  title : string;
  displaytitle : option string;
  description : option string;
  extract : option string;
  thumbnail : option string;
  pageid : option Z
}.

(** The [article] record of a summary response; [getRecommendations] reads
    exactly these six fields of it. *)
Record ArticleSummary := {
  s_title : string;
  s_displaytitle : option string;
  s_description : option string;
  s_extract : option string;
  s_thumbnail : option string;
  s_pageid : option Z
}.

(** Keys under which the query client caches a request:
    [['article-backlinks', t]], [['article-links', t]] and [['article', t]]. *)
Inductive QueryKey :=
| article_backlinks (t : string)
| article_links (t : string)
| article (t : string).

(** How a promise settles. *)
Inductive Settled (A : Type) :=
| Fulfilled (a : A)
| Rejected.
Arguments Fulfilled {A} a.
Arguments Rejected {A}.

(** What a link query resolves to at run time: an array of titles, or a value
    that [for ... of] cannot iterate (the static type [string[]] is erased). *)
Inductive LinkPayload :=
| Titles (l : list string)
| NotIterable.

(** The injected fetchers, seen through [queryClient.fetchQuery]: one settled
    result per key.  A summary query resolves to [response.article], which may
    be absent ([None]). *)
Record Api := {
  fetchArticleBacklinks : string -> Settled LinkPayload;
  fetchArticleLinks : string -> Settled LinkPayload;
  fetchArticleSummary : string -> Settled (option ArticleSummary)
}.

(** Whether a fraction is a binary64 number, for a fraction of the unit
    interval: in lowest terms it is [m / 2^k] with [m < 2^53] and
    [k <= 1074]. *)
Definition binary64 (q : Q) : bool :=
  let m := Qnum (Qred q) in
  let d := Zpos (Qden (Qred q)) in
  (d =? 2 ^ Z.log2 d) && (Z.log2 d <=? 1074) && (m <? 2 ^ 53).

(** A value of [Math.random()]: a binary64 number in the half-open unit
    interval, written as the fraction it is. *)
Record UnitDraw := {
  draw : Q;
  draw_in_unit : Qle_bool 0 draw && negb (Qle_bool 1 draw) && binary64 draw = true
}.

(** The ambient random source: the value of the [k]-th call of [Math.random]. *)
Definition RandomSource := nat -> UnitDraw.

(** [p / 2^d] rounded to the nearest integer, a tie going to the even one. *)
Definition round_half_even (p d : Z) : Z :=
  let q := p / 2 ^ d in
  let rest := p mod 2 ^ d in
  let half := 2 ^ (d - 1) in
  if rest <? half then q
  else if half <? rest then q + 1
  else if Z.even q then q else q + 1.

(** What a binary64 operation makes of the exact result [p * 2^e], [0 <= p],
    written on [p]: a value of at most 53 bits is kept, a longer one loses
    its low bits, rounded to nearest, ties to even.  (The product of a draw by
    an array length is not subnormal once it needs rounding, and it is far
    from overflow.) *)
Definition round53 (p : Z) : Z :=
  if p <? 2 ^ 53 then p
  else let d := Z.log2 p - 52 in round_half_even p d * 2 ^ d.

(** [Math.floor(r * n)] for a draw [r] and a size [n] (an array length, which
    binary64 holds exactly).  With [r = m / 2^k] in lowest terms the exact
    product is [m * n / 2^k]; the multiplication rounds it to binary64, and
    the floor is taken of the rounded product. *)
Definition floor_scaled (r : UnitDraw) (n : nat) : nat :=
  let m := Qnum (Qred (draw r)) in
  let k := Z.log2 (Zpos (Qden (Qred (draw r)))) in
  Z.to_nat (round53 (m * Z.of_nat n) / 2 ^ k).

(** [r > 0.5] *)
Definition above_half (r : UnitDraw) : bool :=
  negb (Qle_bool (draw r) (1 # 2)).

(** [Math.ceil(limit / 2)] *)
Definition ceil_half (limit : Z) : Z := Qceiling (limit # 2).

(** [arr.slice(0, limit)]: a negative end counts from the end of the array. *)
Definition slice0 {A} (arr : list A) (limit : Z) : list A :=
  if decide (limit < 0)
  then take (Z.to_nat (Z.of_nat (length arr) + limit)) arr
  else take (Z.to_nat limit) arr.

(** The destructuring swap [[a[i], a[j]] = [a[j], a[i]]]: both reads happen
    first, then [a[i]] and [a[j]] are written in that order. *)
Definition swap {A} (a : list A) (i j : nat) : list A :=
  match a !! j, a !! i with
  | Some aj, Some ai => <[j:=ai]> (<[i:=aj]> a)
  | _, _ => a
  end.

(** ** The world the hook runs in, and a small monad over it *)

(** Observable state: how many times [Math.random] was called, the queries
    handed to [queryClient.fetchQuery] (oldest first), and the two pieces of
    React state of the hook. *)
Record World := {
  random_calls : nat;
  issued : list QueryKey;
  loading : bool;
  error : option string
}.

Inductive Completion (A : Type) :=
| Normal (a : A)
| Thrown.
Arguments Normal {A} a.
Arguments Thrown {A}.

Definition M (A : Type) : Type := World -> Completion A * World.

#[global] Instance M_ret : MRet M := fun A a w => (Normal a, w).

#[global] Instance M_bind : MBind M := fun A B k m w =>
  match m w with
  | (Normal a, w') => k a w'
  | (Thrown, w') => (Thrown, w')
  end.

Definition throw {A} : M A := fun w => (Thrown, w).

(** [try { body } catch (error) { handler }] *)
Definition try_catch {A} (body handler : M A) : M A :=
  fun w => match body w with
           | (Normal a, w') => (Normal a, w')
           | (Thrown, w') => handler w'
           end.

(** [try { body } finally { cleanup }] for a cleanup that cannot throw and
    does not return. *)
Definition try_finally {A} (body : M A) (cleanup : World -> World) : M A :=
  fun w => let '(c, w') := body w in (c, cleanup w').

Definition setLoading (b : bool) : M unit :=
  fun w => (Normal tt, {| random_calls := random_calls w; issued := issued w;
                          loading := b; error := error w |}).

Definition setError (e : option string) : M unit :=
  fun w => (Normal tt, {| random_calls := random_calls w; issued := issued w;
                          loading := loading w; error := e |}).

Definition clearLoading (w : World) : World :=
  {| random_calls := random_calls w; issued := issued w;
     loading := false; error := error w |}.

(** ** The hook *)

(** [Set.prototype.delete] on a set kept as the list of its members in
    insertion order; deleting [undefined] from a set of numbers is a no-op. *)
Definition set_delete (selected : option nat) (s : list nat) : list nat :=
  match selected with
  | Some x => filter (λ y, y ≠ x) s
  | None => s
  end.

(** The object literal built from a summary response. *)
Definition item_of_summary (summaryResponse : ArticleSummary) : RecommendationItem :=
  {| title := s_title summaryResponse;
     displaytitle := s_displaytitle summaryResponse;
     description := s_description summaryResponse;
     extract := s_extract summaryResponse;
     thumbnail := s_thumbnail summaryResponse;
     pageid := s_pageid summaryResponse |}.

(** The basic recommendation [{ title, displaytitle: title }]. *)
Definition basic_item (t : string) : RecommendationItem :=
  {| title := t; displaytitle := Some t; description := None;
     extract := None; thumbnail := None; pageid := None |}.

(** One step of the flatten-and-filter pass over a link list. *)
Definition merge_title (visitedTitlesSet : gset string)
    (st : gset string * list string) (t : string) : gset string * list string :=
  let '(processedTitles, allCandidates) := st in
  if decide ((t ∉ visitedTitlesSet) ∧ (t ∉ processedTitles))
  then ({[t]} ∪ processedTitles, allCandidates ++ [t])
  else (processedTitles, allCandidates).

(** The final loop over the settled summary promises. *)
Definition collect (limit : Z) (results : list (option RecommendationItem))
    : list RecommendationItem :=
  foldl (λ recommendations result,
           match result with
           | Some r =>
               if decide (Z.of_nat (length recommendations) < limit)
               then recommendations ++ [r]
               else recommendations
           | None => recommendations
           end) [] results.

Section Hook.
Variable visitedArticles : list VisitedArticle.
Variable queryClient : Api.
Variable Math_random : RandomSource.

(** One call of [Math.random()]. *)
Definition random : M UnitDraw :=
  fun w => (Normal (Math_random (random_calls w)),
            {| random_calls := S (random_calls w); issued := issued w;
               loading := loading w; error := error w |}).

(** [await queryClient.fetchQuery({ queryKey, queryFn, ... })]: the query is
    recorded, and a rejected promise throws at the [await]. *)
Definition fetchQuery {A} (queryKey : QueryKey) (queryFn : Settled A) : M A :=
  fun w =>
    let w' := {| random_calls := random_calls w; issued := issued w ++ [queryKey];
                 loading := loading w; error := error w |} in
    match queryFn with
    | Fulfilled a => (Normal a, w')
    | Rejected => (Thrown, w')
    end.

(** The body of the sampling loop, with [remaining] the number of values of
    [i] still below [maxSourceArticles]. *)
Fixpoint sample_loop (remaining : nat) (availableIndices : list nat)
    (sourceArticles : list (option VisitedArticle))
    : M (list (option VisitedArticle)) :=
  match remaining with
  | O => mret sourceArticles
  | S remaining' =>
      if decide (0 < length availableIndices)%nat then
        r ← random;
        let randomIndex := floor_scaled r (length availableIndices) in
        let selectedIndex := availableIndices !! randomIndex in
        sample_loop remaining' (set_delete selectedIndex availableIndices)
          (sourceArticles ++ [selectedIndex ≫= (visitedArticles !!.)])
      else mret sourceArticles
  end.

Definition sampleSourceArticles (maxSourceArticles : Z)
    : M (list (option VisitedArticle)) :=
  sample_loop (Z.to_nat maxSourceArticles)
    (seq 0 (length visitedArticles)) [].

(** The callback of [sourceArticles.map(async (article) => ...)].  Reading
    [article.title] of [undefined] throws inside the [try]. *)
Definition linkTask (article : option VisitedArticle) : M LinkPayload :=
  r ← random;
  let useBacklinks := above_half r in
  try_catch
    (match article with
     | None => throw
     | Some a =>
         if useBacklinks
         then fetchQuery (article_backlinks (v_title a))
                (fetchArticleBacklinks queryClient (v_title a))
         else fetchQuery (article_links (v_title a))
                (fetchArticleLinks queryClient (v_title a))
     end)
    (mret (Titles [])).

(** Flatten and filter: iterating a value that is not iterable throws. *)
Fixpoint mergeCandidates (visitedTitlesSet : gset string)
    (linkResults : list LinkPayload) (st : gset string * list string)
    : M (list string) :=
  match linkResults with
  | [] => mret (snd st)
  | Titles linkList :: rest =>
      mergeCandidates visitedTitlesSet rest
        (foldl (merge_title visitedTitlesSet) st linkList)
  | NotIterable :: _ => throw
  end.

(** [for (let i = allCandidates.length - 1; i > 0; i--)] *)
Fixpoint shuffle_from (i : nat) (allCandidates : list string) : M (list string) :=
  match i with
  | O => mret allCandidates
  | S i' =>
      r ← random;
      let j := floor_scaled r (i + 1) in
      shuffle_from i' (swap allCandidates i j)
  end.

Definition shuffle (allCandidates : list string) : M (list string) :=
  shuffle_from (length allCandidates - 1) allCandidates.

(** The immediately invoked async function resolving one title. *)
Definition summaryTask (t : string) : M (option RecommendationItem) :=
  try_catch
    (summaryResponse ← fetchQuery (article t) (fetchArticleSummary queryClient t);
     match summaryResponse with
     | Some s => mret (Some (item_of_summary s))
     | None => mret None
     end)
    (mret (Some (basic_item t))).

(** The loop that starts the summary promises.  [recommendations] is still
    empty while it runs, so its second condition is [0 < limit]; the indices
    below [fetchLimit] are those of the first [fetchLimit] titles. *)
Definition summaryPromises (limit fetchLimit : Z) (candidateTitles : list string)
    : M (list (option RecommendationItem)) :=
  let recommendations : list RecommendationItem := [] in
  if decide (Z.of_nat (length recommendations) < limit)
  then mapM summaryTask (take (Z.to_nat fetchLimit) candidateTitles)
  else mret [].

(** Step 1 of the [try] block, up to the end of the flatten-and-filter
    pass: the deduplicated unvisited candidates, before the shuffle. *)
Definition gatherCandidates (limit : Z) : M (list string) :=
  let visitedTitlesSet : gset string :=
    list_to_set (v_title <$> visitedArticles) in
  let maxSourceArticles :=
    Z.min (Z.of_nat (length visitedArticles)) (ceil_half limit) in
  sourceArticles ← sampleSourceArticles maxSourceArticles;
  linkResults ← mapM linkTask sourceArticles;
  mergeCandidates visitedTitlesSet linkResults (∅, []).

(** The [try] block of [getRecommendations]. *)
Definition recommend (limit : Z) : M (list RecommendationItem) :=
  if decide (length visitedArticles = 0%nat) then mret []
  else
    allCandidates ← gatherCandidates limit;
    allCandidates ← shuffle allCandidates;
    let candidateTitles := slice0 allCandidates limit in
    let fetchLimit := Z.min (Z.of_nat (length candidateTitles)) (limit + 5) in
    results ← summaryPromises limit fetchLimit candidateTitles;
    mret (collect limit results).

Definition getRecommendations (limit : Z) : M (list RecommendationItem) :=
  setLoading true;;
  setError None;;
  try_finally
    (try_catch (recommend limit)
       (setError (Some "Failed to fetch recommendations");; mret []))
    clearLoading.

End Hook.

(** The state of a freshly mounted hook. *)
Definition idle : World :=
  {| random_calls := 0; issued := []; loading := false; error := None |}.

(** ** Fixtures *)

Definition mkDraw (n : Z) (d : positive)
    (ok : Qle_bool 0 (n # d) && negb (Qle_bool 1 (n # d)) && binary64 (n # d) = true)
    : UnitDraw :=
  {| draw := n # d; draw_in_unit := ok |}.

(** A random source cycling through the given numerators over 8. *)
Definition eighths (k : nat) : UnitDraw :=
  match (k mod 4)%nat with
  | 0%nat => mkDraw 5 8 eq_refl
  | 1%nat => mkDraw 1 8 eq_refl
  | 2%nat => mkDraw 7 8 eq_refl
  | _ => mkDraw 2 8 eq_refl
  end.

Definition visited_A : list VisitedArticle :=
  [ {| v_title := "A"; visitedAt := 1 |} ].

Definition visited_AB : list VisitedArticle :=
  [ {| v_title := "A"; visitedAt := 1 |}; {| v_title := "B"; visitedAt := 2 |} ].

Definition summary_of (t : string) : ArticleSummary :=
  {| s_title := t; s_displaytitle := Some t; s_description := Some "d";
     s_extract := None; s_thumbnail := None; s_pageid := Some 7 |}.

(** Every article links to [X1 .. X8]; summaries echo the requested title. *)
Definition api_eight : Api :=
  {| fetchArticleBacklinks := λ _, Fulfilled (Titles ["X1"; "X2"; "X3"; "X4"; "X5"; "X6"; "X7"; "X8"]);
     fetchArticleLinks := λ _, Fulfilled (Titles ["X1"; "X2"; "X3"; "X4"; "X5"; "X6"; "X7"; "X8"]);
     fetchArticleSummary := λ t, Fulfilled (Some (summary_of t)) |}.

(** Article [A] links to [X]; the summary response of [X] carries no article. *)
Definition api_absent : Api :=
  {| fetchArticleBacklinks := λ _, Fulfilled (Titles ["X"]);
     fetchArticleLinks := λ _, Fulfilled (Titles ["X"]);
     fetchArticleSummary := λ _, Fulfilled None |}.

(** Every summary response carries the article [A], whatever was asked. *)
Definition api_same : Api :=
  {| fetchArticleBacklinks := λ _, Fulfilled (Titles ["X"; "Y"]);
     fetchArticleLinks := λ _, Fulfilled (Titles ["X"; "Y"]);
     fetchArticleSummary := λ _, Fulfilled (Some (summary_of "A")) |}.

(** The link queries of [A] fail, the forward links of [B] resolve to a value
    that cannot be iterated, and everything else resolves. *)
Definition api_faulty : Api :=
  {| fetchArticleBacklinks := λ t,
       if decide (t = "A") then Rejected else Fulfilled (Titles ["Y"; "A"; "Z"; "Y"]);
     fetchArticleLinks := λ t,
       if decide (t = "A") then Rejected else Fulfilled NotIterable;
     fetchArticleSummary := λ t,
       if decide (t = "Z") then Rejected else Fulfilled (Some (summary_of t)) |}.

(** A random source that always draws the same number. *)
Definition constant_draw (n : Z) (d : positive)
    (ok : Qle_bool 0 (n # d) && negb (Qle_bool 1 (n # d)) && binary64 (n # d) = true)
    : RandomSource :=
  λ _, mkDraw n d ok.

(** The world once [setLoading(true)] and [setError(null)] have run. *)
Definition started (w : World) : World :=
  {| random_calls := random_calls w; issued := issued w;
     loading := true; error := None |}.

(** The world a call leaves behind when it made no random call and issued no
    query. *)
Definition settled_quietly (w : World) : World :=
  {| random_calls := random_calls w; issued := issued w;
     loading := false; error := None |}.


(** A draw of the interval [[2/11, 3/11)] whose product by 11 rounds up to 3. *)
Definition rounds_up : UnitDraw :=
  mkDraw 1228254443828317 4503599627370496 eq_refl.





(** The link queries of [A] fail; those of any other article resolve to
    [X, A, Y]; summaries echo the requested title. *)
Definition api_A_fails : Api :=
  {| fetchArticleBacklinks := λ t,
       if decide (t = "A") then Rejected else Fulfilled (Titles ["X"; "A"; "Y"]);
     fetchArticleLinks := λ t,
       if decide (t = "A") then Rejected else Fulfilled (Titles ["X"; "A"; "Y"]);
     fetchArticleSummary := λ t, Fulfilled (Some (summary_of t)) |}.


(** The titles of a link result; a result that is not an array has none. *)
Definition link_titles (p : LinkPayload) : list string :=
  match p with
  | Titles l => l
  | NotIterable => []
  end.

(** ** Closed forms of the stages

    Each function below computes, without the monad, what one stage of the
    hook produces from the number of [Math.random] calls made before it; the
    [_run] lemmas further down prove that the stage itself returns it. *)

(** The world after [n] more random calls and the queries [qs]. *)
Definition advance (n : nat) (qs : list QueryKey) (w : World) : World :=
  {| random_calls := random_calls w + n; issued := issued w ++ qs;
     loading := loading w; error := error w |}.

(** The titles of the summary queries recorded in a world, oldest first. *)
Definition summary_queries (w : World) : list string :=
  omap (λ q, match q with article t => Some t | _ => None end) (issued w).

(** The Fisher-Yates loop over explicit index choices: at index [i] the
    element is swapped with the one at [choose i]. *)
Fixpoint fy_from {A} (choose : nat → nat) (i : nat) (l : list A) : list A :=
  match i with
  | O => l
  | S i' => fy_from choose i' (swap l i (choose i))
  end.

Definition fisher_yates {A} (choose : nat → nat) (l : list A) : list A :=
  fy_from choose (length l - 1) l.


(** The result of the flatten-and-filter pass, [None] when it throws. *)
Fixpoint merged (visitedTitlesSet : gset string) (linkResults : list LinkPayload)
    (st : gset string * list string) : option (list string) :=
  match linkResults with
  | [] => Some (snd st)
  | Titles linkList :: rest =>
      merged visitedTitlesSet rest (foldl (merge_title visitedTitlesSet) st linkList)
  | NotIterable :: _ => None
  end.

(** The invariant of the flatten-and-filter pass: the candidates collected so
    far are pairwise distinct, recorded in [processedTitles], and unvisited. *)
Definition merge_inv (vset : gset string) (st : gset string * list string) : Prop :=
  NoDup (snd st) ∧ (∀ t, t ∈ snd st → t ∈ fst st) ∧ (∀ t, t ∈ snd st → t ∉ vset).

Section Closed.
Variable visitedArticles : list VisitedArticle.
Variable queryClient : Api.
Variable Math_random : RandomSource.

(** The indices selected by the sampling loop. *)
Fixpoint picks (calls remaining : nat) (pool : list nat) : list nat :=
  match remaining with
  | O => []
  | S remaining' =>
      match pool !! floor_scaled (Math_random calls) (length pool) with
      | Some x => x :: picks (S calls) remaining' (filter (λ y, y ≠ x) pool)
      | None => []
      end
  end.

(** The promise a source article's link query settles to. *)
Definition link_fetch (r : UnitDraw) (a : VisitedArticle) : Settled LinkPayload :=
  if above_half r
  then fetchArticleBacklinks queryClient (v_title a)
  else fetchArticleLinks queryClient (v_title a).

Definition link_key (r : UnitDraw) (a : VisitedArticle) : QueryKey :=
  if above_half r then article_backlinks (v_title a) else article_links (v_title a).

(** What a source article contributes to [linkResults]. *)
Definition link_outcome (r : UnitDraw) (article : option VisitedArticle)
    : LinkPayload :=
  match article with
  | Some a =>
      match link_fetch r a with
      | Fulfilled p => p
      | Rejected => Titles []
      end
  | None => Titles []
  end.

(** The query a source article's task hands to the query client. *)
Definition link_query (r : UnitDraw) (article : option VisitedArticle)
    : list QueryKey :=
  match article with
  | Some a => [link_key r a]
  | None => []
  end.

Fixpoint link_outcomes (calls : nat) (sources : list (option VisitedArticle))
    : list LinkPayload :=
  match sources with
  | [] => []
  | a :: rest => link_outcome (Math_random calls) a :: link_outcomes (S calls) rest
  end.

Fixpoint link_keys (calls : nat) (sources : list (option VisitedArticle))
    : list QueryKey :=
  match sources with
  | [] => []
  | a :: rest => link_query (Math_random calls) a ++ link_keys (S calls) rest
  end.

(** The index choices of the shuffle when it starts after [calls] random
    calls on a list whose last index is [last]. *)
Definition shuffle_choices (calls last : nat) (i : nat) : nat :=
  floor_scaled (Math_random (calls + (last - i))%nat) (i + 1).

(** What a summary promise resolves to. *)
Definition resolve (t : string) : option RecommendationItem :=
  match fetchArticleSummary queryClient t with
  | Fulfilled (Some s) => Some (item_of_summary s)
  | Fulfilled None => None
  | Rejected => Some (basic_item t)
  end.

Definition maxSourceArticles_of (limit : Z) : Z :=
  Z.min (Z.of_nat (length visitedArticles)) (ceil_half limit).

Definition sourceIndices (calls : nat) (limit : Z) : list nat :=
  picks calls (Z.to_nat (maxSourceArticles_of limit))
    (seq 0 (length visitedArticles)).

(** The titles handed to summary resolution, given the shuffled list. *)
Definition selectedTitles (limit : Z) (shuffled : list string) : list string :=
  if decide (0 < limit)
  then take (Z.to_nat (Z.min (Z.of_nat (length (slice0 shuffled limit))) (limit + 5)))
         (slice0 shuffled limit)
  else [].

(** The source articles, their link results and link queries, when sampling
    starts after [calls] random calls. *)
Definition sourceArticles_of (calls : nat) (limit : Z)
    : list (option VisitedArticle) :=
  (visitedArticles !!.) <$> sourceIndices calls limit.

Definition linkResults_of (calls : nat) (limit : Z) : list LinkPayload :=
  link_outcomes (calls + length (sourceIndices calls limit))
    (sourceArticles_of calls limit).

Definition linkQueries_of (calls : nat) (limit : Z) : list QueryKey :=
  link_keys (calls + length (sourceIndices calls limit))
    (sourceArticles_of calls limit).

(** The deduplicated unvisited candidates, [None] when the pass throws. *)
Definition candidatePool (calls : nat) (limit : Z) : option (list string) :=
  merged (list_to_set (v_title <$> visitedArticles)) (linkResults_of calls limit)
    (∅, []).

(** The candidates after the shuffle. *)
Definition shuffled_of (calls : nat) (limit : Z) (cands : list string)
    : list string :=
  fisher_yates
    (shuffle_choices (calls + 2 * length (sourceIndices calls limit))
       (length cands - 1)) cands.

End Closed.

(** Backlink queries fail and forward-link queries find nothing. *)
Definition api_no_links : Api :=
  {| fetchArticleBacklinks := λ _, Rejected;
     fetchArticleLinks := λ _, Fulfilled (Titles []);
     fetchArticleSummary := λ t, Fulfilled (Some (summary_of t)) |}.

(** ** The other callbacks of the hook *)

Section Callbacks.
Variable visitedArticles : list VisitedArticle.
Variable queryClient : Api.
Variable Math_random : RandomSource.

(** [getRandomVisitedArticle]: [null] on an empty history, else the entry at
    [Math.floor(Math.random() * visitedArticles.length)]. *)
Definition getRandomVisitedArticle : M (option VisitedArticle) :=
  if decide (length visitedArticles = 0%nat) then mret None
  else
    r ← random Math_random;
    let randomIndex := floor_scaled r (length visitedArticles) in
    mret (visitedArticles !! randomIndex).

(** [getRandomBacklink(visitedArticleTitle, visitedTitlesSet)].  Reading
    [.length] or calling [.filter] on a value that is not an array throws
    inside the [try]. *)
Definition getRandomBacklink (visitedArticleTitle : string)
    (visitedTitlesSet : gset string) : M (option string) :=
  try_catch
    (backlinkTitles ← fetchQuery (article_backlinks visitedArticleTitle)
                        (fetchArticleBacklinks queryClient visitedArticleTitle);
     match backlinkTitles with
     | NotIterable => throw
     | Titles backlinkTitles =>
         if decide (length backlinkTitles = 0%nat) then mret None
         else
           let unvisitedBacklinks :=
             filter (λ t, t ∉ visitedTitlesSet) backlinkTitles in
           if decide (length unvisitedBacklinks = 0%nat) then mret None
           else
             r ← random Math_random;
             let randomIndex := floor_scaled r (length unvisitedBacklinks) in
             mret (unvisitedBacklinks !! randomIndex)
     end)
    (mret None).

(** [getRandomForwardlink(visitedArticleTitle, visitedTitlesSet)] *)
Definition getRandomForwardlink (visitedArticleTitle : string)
    (visitedTitlesSet : gset string) : M (option string) :=
  try_catch
    (forwardLinkTitles ← fetchQuery (article_links visitedArticleTitle)
                           (fetchArticleLinks queryClient visitedArticleTitle);
     match forwardLinkTitles with
     | NotIterable => throw
     | Titles forwardLinkTitles =>
         if decide (length forwardLinkTitles = 0%nat) then mret None
         else
           let unvisitedForwardLinks :=
             filter (λ t, t ∉ visitedTitlesSet) forwardLinkTitles in
           if decide (length unvisitedForwardLinks = 0%nat) then mret None
           else
             r ← random Math_random;
             let randomIndex := floor_scaled r (length unvisitedForwardLinks) in
             mret (unvisitedForwardLinks !! randomIndex)
     end)
    (mret None).

(** What both link pickers compute from the settled link query, after
    [calls] random calls: the pick and the number of draws it took. *)
Definition random_link (calls : nat) (visitedTitlesSet : gset string)
    (fetched : Settled LinkPayload) : option string * nat :=
  match fetched with
  | Fulfilled (Titles linkTitles) =>
      let unvisited := filter (λ t, t ∉ visitedTitlesSet) linkTitles in
      match unvisited with
      | [] => (None, 0%nat)
      | _ => (unvisited !! floor_scaled (Math_random calls) (length unvisited), 1%nat)
      end
  | _ => (None, 0%nat)
  end.

(** [visitedArticlesCount], as the hook returns it. *)
Definition visitedArticlesCount : nat := length visitedArticles.

End Callbacks.

(** ** [fetchConcurrently] of the shared API module *)

(** The loop of [fetchConcurrently(items, requestFn)]: the items are awaited
    one after the other; a request that throws is logged and skipped. *)
Fixpoint fetchConcurrently_from {T R} (requestFn : T → M R) (items : list T)
    (fulfilledResults : list R) : M (list R) :=
  match items with
  | [] => mret fulfilledResults
  | item :: rest =>
      fulfilledResults' ←
        try_catch
          (result ← requestFn item; mret (fulfilledResults ++ [result]))
          (mret fulfilledResults);
      fetchConcurrently_from requestFn rest fulfilledResults'
  end.

Definition fetchConcurrently {T R} (items : list T) (requestFn : T → M R)
    : M (list R) :=
  fetchConcurrently_from requestFn items [].

(** A request function that hands one query per item to the query client. *)
Definition keyed_request {T R} (key : T → QueryKey) (outcome : T → Settled R)
    (item : T) : M R :=
  fetchQuery (key item) (outcome item).

(** The value of a fulfilled promise. *)
Definition fulfilled_value {R} (s : Settled R) : option R :=
  match s with
  | Fulfilled r => Some r
  | Rejected => None
  end.

(** ** [fetchRandomArticle]: a random page summary, with retries *)

Module RandomArticle.

(** The body of a summary response, as far as the function reads it. *)
Record ArticleData := {
  title : option string;
  extract : option string
}.

(** What the [try] block throws, as the [catch] reads it:
    [error.response?.status], [error.code], and [error.message] when the
    thrown value is an [Error] ([None] otherwise). *)
Record RequestError := {
  status : option Z;
  code : option string;
  message : option string
}.

(** How the call of [axiosInstance.get] of one attempt ends, once the client
    has settled it: with a body (status 200), or with a thrown value (a
    rejected request, or a [TypeError] on a missing body). *)
Inductive Response :=
| Responded (data : ArticleData)
| Failed (e : RequestError).

Record ArticleResponse := {
  article : option ArticleData;
  error : option string
}.

(** What the function itself does: a call of [axiosInstance.get] for
    [/page/random/summary], or a [setTimeout] wait of [ms] milliseconds of its
    own retry loop.  What the client does inside a call (its interceptors
    wait for the rate limit, and wait and send the request again on a 429 or
    5xx answer) is not part of the trace. *)
Inductive Event :=
| Get
| Sleep (ms : Z).

(** [!s] for a string that may be absent. *)
Definition falsy (s : option string) : bool :=
  match s with
  | None => true
  | Some s => bool_decide (s = "")
  end.

(** [!data.title || !data.extract] *)
Definition incomplete (data : ArticleData) : bool :=
  falsy (title data) || falsy (extract data).

(** [axiosError.response?.status === 404 || axiosError.code === 'NETWORK_ERROR'] *)
Definition retryable (e : RequestError) : bool :=
  bool_decide (status e = Some 404) || bool_decide (code e = Some "NETWORK_ERROR").

(** [error instanceof Error ? error.message : 'Unknown error occurred'] *)
Definition error_text (e : RequestError) : string :=
  match message e with
  | Some m => m
  | None => "Unknown error occurred"
  end.

Section Fetch.
(** What the call of [axiosInstance.get] made at a given attempt settles to. *)
Variable get : Z → Response.
Variable maxRetries : Z.

(** The loop [for (let attempt = 1; attempt <= maxRetries; attempt++)], with
    [remaining] the number of values of [attempt] still at most [maxRetries];
    the events are recorded oldest first. *)
Fixpoint attempts (remaining : nat) (attempt : Z) (trace : list Event)
    : ArticleResponse * list Event :=
  match remaining with
  | O => ({| article := None; error := Some "All retry attempts failed" |}, trace)
  | S remaining' =>
      match get attempt with
      | Responded data =>
          if incomplete data
          then attempts remaining' (attempt + 1) (trace ++ [Get])
          else ({| article := Some data; error := None |}, trace ++ [Get])
      | Failed e =>
          if retryable e && bool_decide (attempt < maxRetries)
          then attempts remaining' (attempt + 1) (trace ++ [Get; Sleep (500 * attempt)])
          else ({| article := None; error := Some (error_text e) |}, trace ++ [Get])
      end
  end.

Definition fetchRandomArticle : ArticleResponse * list Event :=
  attempts (Z.to_nat maxRetries) 1 [].

(** Whether the attempt leads to another one: an incomplete body, or a
    retryable failure before the last attempt. *)
Definition continues (attempt : Z) : bool :=
  match get attempt with
  | Responded data => incomplete data
  | Failed e => retryable e && bool_decide (attempt < maxRetries)
  end.

End Fetch.

(** The number of calls of [axiosInstance.get] in a trace, and the time the
    retry loop itself waits between them. *)
Definition get_calls (trace : list Event) : nat :=
  foldr (λ ev n, match ev with Get => S n | Sleep _ => n end) 0%nat trace.

Definition backoff (trace : list Event) : Z :=
  foldr (λ ev total, match ev with Sleep ms => ms + total | Get => total end) 0 trace.

(** The default of [maxRetries]. *)
Definition default_maxRetries : Z := 3.

(** A server whose random pages all lack an extract. *)
Definition always_incomplete (attempt : Z) : Response :=
  Responded {| title := Some "T"; extract := None |}.

(** A server that is unreachable twice and then answers. *)
Definition third_time_lucky (attempt : Z) : Response :=
  if bool_decide (attempt < 3)
  then Failed {| status := None; code := Some "NETWORK_ERROR";
                 message := Some "Network Error" |}
  else Responded {| title := Some "T"; extract := Some "E" |}.

(** A server that answers 404 once and 403 afterwards. *)
Definition forbidden_after_404 (attempt : Z) : Response :=
  if bool_decide (attempt < 2)
  then Failed {| status := Some 404; code := None; message := Some "Not Found" |}
  else Failed {| status := Some 403; code := None; message := Some "Forbidden" |}.

End RandomArticle.

(** ** String operations of the article components

    A JavaScript string is the list of its code units; the functions below
    only inspect ASCII characters. *)

Module JsString.

Definition text := list Ascii.ascii.

(** A string literal. *)
Definition lit (s : string) : text := String.list_ascii_of_string s.

(** [s.startsWith(pat)] *)
Fixpoint startsWith (pat s : text) : bool :=
  match pat, s with
  | [], _ => true
  | _ :: _, [] => false
  | p :: pat', c :: s' => Ascii.eqb p c && startsWith pat' s'
  end.

(** [s.indexOf(pat)], [None] for [-1]. *)
Fixpoint indexOf (pat s : text) : option nat :=
  if startsWith pat s then Some 0%nat
  else match s with
       | [] => None
       | _ :: s' => S <$> indexOf pat s'
       end.

(** [s.includes(pat)] *)
Definition includes (pat s : text) : bool :=
  match indexOf pat s with
  | Some _ => true
  | None => false
  end.

(** [s.replace(pat, '')] for a string pattern: the first occurrence goes. *)
Definition replace_first (pat s : text) : text :=
  match indexOf pat s with
  | Some i => take i s ++ drop (i + length pat) s
  | None => s
  end.

(** [s.split(sep)[0]] for a non-empty separator. *)
Definition split_0 (sep s : text) : text :=
  match indexOf sep s with
  | Some i => take i s
  | None => s
  end.

(** [s.split(sep)[1]] for a non-empty separator, [None] for [undefined]. *)
Definition split_1 (sep s : text) : option text :=
  match indexOf sep s with
  | Some i => Some (split_0 sep (drop (i + length sep) s))
  | None => None
  end.

End JsString.

(** ** [handleLinkPress] of the article screen *)

Module LinkPress.
Import JsString.

(** What pressing a link does: [router.push(path)], or
    [Linking.openURL(href)]. *)
Inductive Action :=
| push (path : text)
| openURL (href : text).

Definition handleLinkPress (href : text) : Action :=
  let external := openURL href in
  if startsWith (lit "/wiki/") href || includes (lit "wikipedia.org/wiki/") href then
    let articleTitle :=
      if startsWith (lit "/wiki/") href then replace_first (lit "/wiki/") href
      else if includes (lit "wikipedia.org/wiki/") href then
        match split_1 (lit "/wiki/") href with
        | Some part => part
        | None => []
        end
      else [] in
    let articleTitle := split_0 (lit "?") (split_0 (lit "#") articleTitle) in
    match articleTitle with
    | [] => external
    | _ => push (lit "/article/" ++ articleTitle)
    end
  else external.

End LinkPress.

(** ** [extractIntro] of the article parsing utilities *)

Module ArticleParsing.
Import Stdlib.Strings.Ascii JsString.

(** Whether [/<h2[^>]*>/i] matches at the start of the string: [<], [h] in
    either case, [2], and a [>] somewhere after them. *)
Definition h2_open_here (s : text) : bool :=
  match s with
  | c0 :: c1 :: c2 :: rest =>
      Ascii.eqb c0 "<"%char
      && (Ascii.eqb c1 "h"%char || Ascii.eqb c1 "H"%char)
      && Ascii.eqb c2 "2"%char
      && includes (lit ">") rest
  | _ => false
  end.

(** [html.search(/<h2[^>]*>/i)], [None] for [-1]. *)
Fixpoint search_h2 (html : text) : option nat :=
  if h2_open_here html then Some 0%nat
  else match html with
       | [] => None
       | _ :: html' => S <$> search_h2 html'
       end.

Record Intro := {
  introHtml : text;
  remaining : text
}.

Definition extractIntro (html : text) : Intro :=
  match search_h2 html with
  | None => {| introHtml := html; remaining := [] |}
  | Some idx => {| introHtml := take idx html; remaining := drop idx html |}
  end.

(** Whether [/<\/h2>/i] matches at the start of the string. *)
Definition h2_close_here (s : text) : bool :=
  match s with
  | c0 :: c1 :: c2 :: c3 :: c4 :: _ =>
      Ascii.eqb c0 "<" && Ascii.eqb c1 "/"
      && (Ascii.eqb c2 "h" || Ascii.eqb c2 "H")
      && Ascii.eqb c3 "2" && Ascii.eqb c4 ">"
  | _ => false
  end.

(** The offset of the first closing [h2] tag. *)
Fixpoint find_close (s : text) : option nat :=
  if h2_close_here s then Some 0%nat
  else match s with
       | [] => None
       | _ :: s' => S <$> find_close s'
       end.

(** A match of [/<h2[^>]*>([\s\S]*?)<\/h2>/i] at the start of the string:
    the captured group and the length of the match.  The opening tag runs to
    the first [>]; the lazy group stops at the first closing tag after it. *)
Definition h2_match_here (s : text) : option (text * nat) :=
  match s with
  | c0 :: c1 :: c2 :: rest =>
      if Ascii.eqb c0 "<" && (Ascii.eqb c1 "h" || Ascii.eqb c1 "H") && Ascii.eqb c2 "2"
      then
        match indexOf (lit ">") rest with
        | Some j =>
            let body := drop (S j) rest in
            match find_close body with
            | Some k => Some (take k body, (3 + S j + k + 5)%nat)
            | None => None
            end
        | None => None
        end
      else None
  | _ => None
  end.

(** The loop [while ((m = h2Regex.exec(html)) !== null)] of a global regular
    expression: the matches from left to right, each search starting where
    the previous match ended.  [skip] counts the characters still inside the
    previous match, [pos] is the index of the head of [s] in the html. *)
Fixpoint h2_matches (s : text) (skip pos : nat) : list (nat * text) :=
  match s with
  | [] => []
  | _ :: s' =>
      match skip with
      | S skip' => h2_matches s' skip' (S pos)
      | O =>
          match h2_match_here s with
          | Some (headingText, len) =>
              (pos, headingText) :: h2_matches s' (len - 1) (S pos)
          | None => h2_matches s' 0 (S pos)
          end
      end
  end.

(** [s.replace(/<[^>]*>/g, '')]: every [<] that is followed by a [>] goes,
    with everything up to the first such [>]. *)
Fixpoint strip_tags (inside : bool) (s : text) : text :=
  match s with
  | [] => []
  | c :: s' =>
      if inside then
        if Ascii.eqb c ">" then strip_tags false s' else strip_tags true s'
      else if Ascii.eqb c "<" && includes (lit ">") s' then strip_tags true s'
      else c :: strip_tags false s'
  end.

(** The white space and line terminators that [trim] removes, among the code
    units below 256. *)
Definition is_space (c : ascii) : bool :=
  bool_decide (nat_of_ascii c ∈ [9; 10; 11; 12; 13; 32; 160]%nat).

Fixpoint trimStart (s : text) : text :=
  match s with
  | [] => []
  | c :: s' => if is_space c then trimStart s' else s
  end.

(** [s.trim()] *)
Definition trim (s : text) : text :=
  reverse (trimStart (reverse (trimStart s))).

(** The decimal digits of an index, as a template literal prints it. *)
Definition digits (i : nat) : text :=
  lit (DecimalString.NilZero.string_of_uint (Nat.to_uint i)).

Record HtmlSection := {
  id : text;
  heading : text;
  html : text
}.

(** [html.slice(start, end)] for [start <= end]. *)
Definition slice (start stop : nat) (s : text) : text :=
  take (stop - start) (drop start s).

(** The heading of a section: the captured text without tags, trimmed, or
    ['Section'] when nothing is left. *)
Definition heading_of (headingText : text) : text :=
  match trim (strip_tags false headingText) with
  | [] => lit "Section"
  | h => h
  end.

(** The loop [for (let i = 0; i < matches.length; i++)] from index [i] on. *)
Fixpoint sections_from (whole : text) (i : nat) (matches : list (nat * text))
    : list HtmlSection :=
  match matches with
  | [] => []
  | (start, headingText) :: rest =>
      let nextStart :=
        match rest with
        | (next, _) :: _ => next
        | [] => length whole
        end in
      {| id := lit "section-" ++ digits i;
         heading := heading_of headingText;
         html := slice start nextStart whole |}
      :: sections_from whole (S i) rest
  end.

Definition splitIntoSections (whole : text) : list HtmlSection :=
  match trim whole with
  | [] => []
  | _ =>
      match h2_matches whole 0 0 with
      | [] => [ {| id := lit "section-0"; heading := lit "Content"; html := whole |} ]
      | matches => sections_from whole 0 matches
      end
  end.

(** Match positions that increase strictly within [[lo, hi)]. *)
Fixpoint ascending (lo hi : nat) (matches : list (nat * text)) : Prop :=
  match matches with
  | [] => True
  | (start, _) :: rest => (lo ≤ start < hi)%nat ∧ ascending (S start) hi rest
  end.

End ArticleParsing.

(** ** [fetchArticleCategories] *)

Module Categories.
Import JsString.

(** The part of the API response that the function reads: [data.query],
    the values of [data.query.pages] in the order of [Object.values], and the
    [categories] of a page; a missing member is [None]. *)
Record Category := { title : text }.
Record Page := { categories : option (list Category) }.
Record Query := { pages : option (list Page) }.
Record Data := { query : option Query }.

(** [category.title.replace('Category:', '')] *)
Definition categoryName (category : Category) : text :=
  replace_first (lit "Category:") (title category).

(** The function, given how the request settled.  With no page at all,
    [page] is [undefined] and reading [page.categories] throws into the
    [catch]. *)
Definition fetchArticleCategories (response : Settled Data) : list text :=
  match response with
  | Rejected => []
  | Fulfilled data =>
      match query data with
      | None => []
      | Some q =>
          match pages q with
          | None => []
          | Some [] => []
          | Some (page :: _) =>
              match categories page with
              | Some cs => categoryName <$> cs
              | None => []
              end
          end
      end
  end.

End Categories.

(** ** [fetchArticleHtml]: the title it asks for *)

Module ArticleHtml.
Import Stdlib.Strings.Ascii JsString.

(** [s.replace(/\s+/g, '_')]: every run of white space becomes one
    underscore; [in_run] tells that the previous character was white space. *)
Fixpoint collapse_spaces (in_run : bool) (s : text) : text :=
  match s with
  | [] => []
  | c :: s' =>
      if ArticleParsing.is_space c then
        if in_run then collapse_spaces true s'
        else "_"%char :: collapse_spaces true s'
      else c :: collapse_spaces false s'
  end.

(** [s.replace(/%20/g, '_')] *)
Fixpoint replace_pct20 (s : text) : text :=
  match s with
  | [] => []
  | c :: s' =>
      match s' with
      | _ :: _ :: s'' =>
          if startsWith (lit "%20") s then "_"%char :: replace_pct20 s''
          else c :: replace_pct20 s'
      | _ => c :: replace_pct20 s'
      end
  end.

Fixpoint stripStart (s : text) : text :=
  match s with
  | [] => []
  | c :: s' => if Ascii.eqb c "_" then stripStart s' else s
  end.

(** [s.replace(/^_+|_+$/g, '')]: the leading and the trailing underscores go. *)
Definition strip_underscores (s : text) : text :=
  reverse (stripStart (reverse (stripStart s))).

(** The [cleanTitle] of [fetchArticleHtml]. *)
Definition cleanTitle (title : text) : text :=
  strip_underscores (replace_pct20 (collapse_spaces false (ArticleParsing.trim title))).

(** What a clean title looks like: no white space, no "%20", no underscore
    at either end. *)
Definition clean (s : text) : Prop :=
  (∀ c, c ∈ s → ArticleParsing.is_space c = false) ∧
  includes (lit "%20") s = false ∧
  head s ≠ Some "_"%char ∧ last s ≠ Some "_"%char.

Section Fetch.
(** The Core API, by the clean title of the page asked for
    ([encodeURIComponent] is one to one). *)
Variable get : text → Settled text.

(** The function: the html, or [null] when the request fails. *)
Definition fetchArticleHtml (title : text) : option text :=
  match get (cleanTitle title) with
  | Fulfilled data => Some data
  | Rejected => None
  end.

End Fetch.

End ArticleHtml.

(** ** Numbers: draws, floors and ceilings *)

Lemma draw_bounds (r : UnitDraw) : (0 <= draw r)%Q ∧ (draw r < 1)%Q.
Proof.
  destruct r as [q Hq]; simpl.
  apply andb_true_iff in Hq as [Hq _]. apply andb_true_iff in Hq as [Hlo Hhi].
  apply Qle_bool_iff in Hlo.
  apply negb_true_iff in Hhi.
  split; [exact Hlo|].
  apply Qnot_le_lt. intros Hle.
  apply Qle_bool_iff in Hle. congruence.
Qed.

(** ** The binary64 product *)

(** The shape of a rounding. *)
Lemma round53_spec (p : Z) :
  0 <= p →
  ∃ u q rest d,
    0 <= d ∧ u = 2 ^ d ∧ p = q * u + rest ∧ 0 <= rest < u ∧
    (u = 1 ∨ 2 ^ 52 <= q) ∧ 0 <= q < 2 ^ 53 ∧
    (round53 p = q * u ∧ 2 * rest <= u ∨ round53 p = (q + 1) * u ∧ u <= 2 * rest).
Proof.
  intros Hp. unfold round53. destruct (Z.ltb_spec p (2 ^ 53)) as [Hlt|Hge].
  { exists 1, p, 0, 0. repeat split; lia. }
  assert (Hpos : 0 < p) by lia.
  destruct (Z.log2_spec p Hpos) as [Hlo Hhi].
  assert (HL : 53 <= Z.log2 p).
  { apply Z.log2_le_pow2; lia. }
  set (d := Z.log2 p - 52) in *.
  assert (Hd : 1 <= d) by lia.
  assert (Hu : 0 < 2 ^ d) by (apply Z.pow_pos_nonneg; lia).
  assert (Hlog : 2 ^ Z.log2 p = 2 ^ 52 * 2 ^ d).
  { rewrite <- Z.pow_add_r by lia. f_equal. lia. }
  assert (Hsucc : 2 ^ Z.succ (Z.log2 p) = 2 ^ 53 * 2 ^ d).
  { rewrite <- Z.pow_add_r by lia. f_equal. lia. }
  assert (Hhalf : 2 ^ d = 2 * 2 ^ (d - 1)).
  { rewrite <- Z.pow_succ_r by lia. f_equal. lia. }
  pose proof (Z.div_mod p (2 ^ d) ltac:(lia)) as Hdm.
  pose proof (Z.mod_pos_bound p (2 ^ d) Hu) as Hmod.
  set (u := 2 ^ d) in *. set (q := p / u) in *. set (rest := p mod u) in *.
  assert (Hq : 2 ^ 52 <= q < 2 ^ 53).
  { split.
    - apply Z.div_le_lower_bound; lia.
    - apply Z.div_lt_upper_bound; lia. }
  exists u, q, rest, d. repeat split; try lia.
  unfold round_half_even. fold u q rest. cbn zeta.
  set (h := 2 ^ (d - 1)) in *.
  destruct (Z.ltb_spec rest h); [left; lia|].
  destruct (Z.ltb_spec h rest); [right; lia|].
  destruct (Z.even q); [left|right]; lia.
Qed.

(** The rounding error is at most [2^-53] of the value. *)
Lemma round53_error (p : Z) :
  0 <= p → 2 ^ 53 * Z.abs (round53 p - p) <= p.
Proof.
  intros Hp.
  destruct (round53_spec p Hp) as (u & q & rest & d & Hd & Hu & Hpq & Hrest & Hq & Hq' & Hr).
  assert (H53 : 2 ^ 53 = 2 * 2 ^ 52) by reflexivity.
  set (B := 2 ^ 52) in *. clearbody B.
  destruct Hr as [[-> Hh]|[-> Hh]]; destruct Hq as [->|Hq]; nia.
Qed.

Lemma round53_nonneg (p : Z) : 0 <= p → 0 <= round53 p.
Proof.
  intros Hp.
  destruct (round53_spec p Hp) as (u & q & rest & d & Hd & Hu & Hpq & Hrest & Hq & Hq' & Hr).
  destruct Hr as [[-> Hh]|[-> Hh]]; nia.
Qed.

(** A product of a number below 1, of at most 53 bits, by [n] rounds to a
    value below [n]. *)
Lemma round53_below (m n K : Z) :
  0 <= m → m < K → m < 2 ^ 53 → 0 < n →
  round53 (m * n) < n * K.
Proof.
  intros Hm HmK Hm53 Hn.
  assert (Hp : 0 <= m * n) by nia.
  destruct (round53_spec (m * n) Hp)
    as (u & q & rest & d & Hd & Hu & Hpq & Hrest & Hq & Hq' & Hr).
  assert (H53 : 2 ^ 53 = 2 * 2 ^ 52) by reflexivity.
  set (B := 2 ^ 52) in *. assert (HB : 0 < B) by (unfold B; lia). clearbody B.
  destruct Hr as [[-> Hh]|[-> Hh]]; [nia|].
  destruct Hq as [->|Hq]; [lia|].
  (* the gap to [n * K] is at least [2^-53] of it *)
  assert (Hgap : n * K <= 2 * B * (n * K - m * n)).
  { destruct (Z.le_gt_cases K (2 * B)); nia. }
  destruct (Z.lt_ge_cases ((q + 1) * u) (n * K)) as [|Hge]; [done|].
  exfalso. nia.
Qed.

(** Rounding never goes below a value of at most 53 bits that the exact
    value reaches. *)
Lemma round53_above (p t k : Z) :
  0 <= k → 0 <= t < 2 ^ 53 → t * 2 ^ k <= p → t * 2 ^ k <= round53 p.
Proof.
  intros Hk Ht Hle.
  assert (HK : 0 < 2 ^ k) by (apply Z.pow_pos_nonneg; lia).
  assert (Hp : 0 <= p) by nia.
  destruct (round53_spec p Hp)
    as (u & q & rest & d & Hd & Hu & Hpq & Hrest & Hq & Hq' & Hr).
  assert (Hqu : t * 2 ^ k <= q * u).
  { destruct (Z.le_gt_cases d k) as [Hdk|Hdk].
    - assert (Hsplit : 2 ^ k = 2 ^ (k - d) * u).
      { subst u. rewrite <- Z.pow_add_r by lia. f_equal. lia. }
      assert (0 < 2 ^ (k - d)) by (apply Z.pow_pos_nonneg; lia).
      rewrite Hsplit in *. set (c := 2 ^ (k - d)) in *. clearbody c.
      assert (Hlt : (t * c) * u < (q + 1) * u) by lia.
      assert (t * c < q + 1) by (apply (Z.mul_lt_mono_pos_r u); lia).
      assert ((t * c) * u <= q * u) by (apply Z.mul_le_mono_nonneg_r; lia).
      lia.
    - assert (Hsplit : u = 2 ^ (d - k) * 2 ^ k).
      { subst u. rewrite <- Z.pow_add_r by lia. f_equal. lia. }
      assert (2 <= 2 ^ (d - k)).
      { change 2 with (2 ^ 1) at 1. apply Z.pow_le_mono_r; lia. }
      assert (H53 : 2 ^ 53 = 2 * 2 ^ 52) by reflexivity.
      set (B := 2 ^ 52) in *. assert (HB : 0 < B) by (unfold B; lia). clearbody B.
      set (c := 2 ^ (d - k)) in *. clearbody c.
      set (K := 2 ^ k) in *. clearbody K.
      assert (HcK : K * 2 <= u) by nia.
      destruct Hq as [Hu1|Hq]; [lia|].
      assert (t * K < 2 * B * K) by nia.
      assert (B * (K * 2) <= q * u) by nia.
      lia. }
  destruct Hr as [[-> Hh]|[-> Hh]]; nia.
Qed.

(** What [draw_in_unit] says of a draw [m / 2^k] in lowest terms. *)
Lemma draw_parts (r : UnitDraw) :
  let m := Qnum (Qred (draw r)) in
  let k := Z.log2 (Zpos (Qden (Qred (draw r)))) in
  0 <= k ∧ Zpos (Qden (Qred (draw r))) = 2 ^ k ∧ 0 <= m ∧ m < 2 ^ k ∧ m < 2 ^ 53.
Proof.
  destruct r as [q Hq]; cbn [draw]. cbn zeta.
  apply andb_true_iff in Hq as [Hq H64]. apply andb_true_iff in Hq as [Hlo Hhi].
  apply Qle_bool_iff in Hlo. apply negb_true_iff in Hhi.
  assert (Hlt : (q < 1)%Q).
  { apply Qnot_le_lt. intros Hle. apply Qle_bool_iff in Hle. congruence. }
  rewrite <- (Qred_correct q) in Hlo, Hlt.
  unfold binary64 in H64. cbn zeta in H64.
  apply andb_true_iff in H64 as [H64 Hm]. apply andb_true_iff in H64 as [Hpow Hk].
  apply Z.eqb_eq in Hpow. apply Z.ltb_lt in Hm.
  unfold Qle, Qlt in *. cbn [Qnum Qden] in *.
  split; [apply Z.log2_nonneg|]. split; [exact Hpow|].
  rewrite <- Hpow. lia.
Qed.

Lemma floor_scaled_lt (r : UnitDraw) (n : nat) :
  (0 < n)%nat → (floor_scaled r n < n)%nat.
Proof.
  intros Hn. unfold floor_scaled.
  destruct (draw_parts r) as (Hk & _ & Hm & HmK & Hm53). cbn zeta in *.
  set (m := Qnum (Qred (draw r))) in *.
  set (k := Z.log2 (Z.pos (Qden (Qred (draw r))))) in *.
  assert (HK : 0 < 2 ^ k) by (apply Z.pow_pos_nonneg; lia).
  pose proof (round53_below m (Z.of_nat n) (2 ^ k) Hm HmK Hm53 ltac:(lia)) as Hlt.
  pose proof (round53_nonneg (m * Z.of_nat n) ltac:(nia)) as Hge.
  assert (round53 (m * Z.of_nat n) / 2 ^ k < Z.of_nat n).
  { apply Z.div_lt_upper_bound; lia. }
  assert (0 <= round53 (m * Z.of_nat n) / 2 ^ k) by (apply Z.div_pos; lia).
  lia.
Qed.

(** The exact floor [floor(r * n)], on the parts of the draw. *)
Lemma Qfloor_scaled (r : UnitDraw) (n : nat) :
  Qfloor (draw r * inject_Z (Z.of_nat n)) =
  (Qnum (Qred (draw r)) * Z.of_nat n) / 2 ^ Z.log2 (Zpos (Qden (Qred (draw r)))).
Proof.
  destruct (draw_parts r) as (_ & Hden & _). cbn zeta in Hden. rewrite <- Hden.
  rewrite <- (Qred_correct (draw r)) at 1.
  destruct (Qred (draw r)) as [m d]. unfold Qfloor, Qmult, inject_Z. cbn [Qnum Qden].
  by rewrite Pos.mul_1_r.
Qed.

(** [Math.floor(r * n)] against the exact floor: the binary64 product is the
    exact one rounded, so the index is the exact floor or, when the product
    rounds up to the next integer, one more. *)
Lemma floor_scaled_near (r : UnitDraw) (n : nat) :
  Z.of_nat n <= 2 ^ 53 →
  let x := (draw r * inject_Z (Z.of_nat n))%Q in
  Qfloor x <= Z.of_nat (floor_scaled r n) <= Qfloor x + 1 ∧
  ((x * (1 + (1 # 2 ^ 53)) < inject_Z (Qfloor x + 1))%Q →
   Z.of_nat (floor_scaled r n) = Qfloor x).
Proof.
  intros Hn x.
  assert (Hx : (x == Qnum (Qred (draw r)) * Z.of_nat n
                     # Qden (Qred (draw r)))%Q).
  { unfold x. rewrite <- (Qred_correct (draw r)) at 1.
    destruct (Qred (draw r)) as [m d]. unfold Qmult, inject_Z, Qeq. cbn [Qnum Qden].
    by rewrite Pos.mul_1_r. }
  pose proof (Qfloor_scaled r n) as Hfl. fold x in Hfl. rewrite !Hfl. clear Hfl.
  unfold floor_scaled.
  destruct (draw_parts r) as (Hk & Hden & Hm & HmK & Hm53). cbn zeta in *.
  set (m := Qnum (Qred (draw r))) in *.
  set (k := Z.log2 (Z.pos (Qden (Qred (draw r))))) in *.
  set (p := m * Z.of_nat n) in *.
  assert (HK : 0 < 2 ^ k) by (apply Z.pow_pos_nonneg; lia).
  assert (Hp : 0 <= p) by (unfold p; nia).
  assert (HpK : p < Z.of_nat n * 2 ^ k ∨ n = 0%nat) by (unfold p; nia).
  pose proof (Z.div_mod p (2 ^ k) ltac:(lia)) as Hdm.
  pose proof (Z.mod_pos_bound p (2 ^ k) HK) as Hmod.
  set (t := p / 2 ^ k) in *.
  assert (Ht : 0 <= t < 2 ^ 53).
  { split; [apply Z.div_pos; lia|]. apply Z.div_lt_upper_bound; [lia|].
    destruct HpK as [HpK| ->]; [nia|]. unfold p. simpl. lia. }
  pose proof (round53_above p t k Hk Ht ltac:(lia)) as Hlo.
  pose proof (round53_error p Hp) as Herr.
  pose proof (round53_nonneg p Hp) as Hge.
  set (R := round53 p) in *.
  assert (H53 : 2 ^ 53 = 2 * 2 ^ 52) by reflexivity.
  assert (Hidx_lo : t <= R / 2 ^ k) by (apply Z.div_le_lower_bound; lia).
  assert (Hidx_hi : R / 2 ^ k < t + 2).
  { apply Z.div_lt_upper_bound; [lia|].
    assert (2 ^ 53 * (R - p) < 2 ^ 53 * 2 ^ k); [|nia].
    destruct HpK as [HpK| ->]; [nia|]. unfold p in *. simpl in *. lia. }
  split; [lia|].
  intros Hcond. rewrite Hx in Hcond.
  assert (Hz : p * (2 ^ 53 + 1) < (t + 1) * (2 ^ k * 2 ^ 53)).
  { unfold Qlt, Qmult, Qplus, inject_Z in Hcond. cbn [Qnum Qden] in Hcond.
    rewrite Pos2Z.inj_mul, Hden in Hcond.
    change (Z.pos (1 * 2 ^ 53)) with (2 ^ 53) in Hcond. lia. }
  assert (R / 2 ^ k < t + 1); [|lia].
  apply Z.div_lt_upper_bound; [lia|].
  apply (Z.mul_lt_mono_pos_l (2 ^ 53)); lia.
Qed.





(** [Math.ceil(limit / 2)] on integers. *)
Lemma ceil_half_eq (limit : Z) : ceil_half limit = (limit + 1) `div` 2.
Proof.
  unfold ceil_half, Qceiling, Qfloor. simpl.
  pose proof (Z.mod_pos_bound (- limit) 2).
  pose proof (Z.div_mod (- limit) 2).
  pose proof (Z.mod_pos_bound (limit + 1) 2).
  pose proof (Z.div_mod (limit + 1) 2).
  lia.
Qed.

(** ** Running the monad *)

Lemma advance_0 (w : World) : advance 0 [] w = w.
Proof. destruct w. unfold advance. simpl. by rewrite Nat.add_0_r, app_nil_r. Qed.

Lemma advance_advance (n m : nat) (qs ps : list QueryKey) (w : World) :
  advance n qs (advance m ps w) = advance (m + n) (ps ++ qs) w.
Proof. unfold advance. simpl. by rewrite Nat.add_assoc, app_assoc. Qed.

Lemma bind_run {A B} (m : M A) (k : A → M B) (w : World) :
  (m ≫= k) w = match m w with
               | (Normal a, w') => k a w'
               | (Thrown, w') => (Thrown, w')
               end.
Proof. reflexivity. Qed.

Lemma bind_normal {A B} (m : M A) (k : A → M B) (w w' : World) (a : A) :
  m w = (Normal a, w') → (m ≫= k) w = k a w'.
Proof. intros H. by rewrite bind_run, H. Qed.

Lemma bind_thrown {A B} (m : M A) (k : A → M B) (w w' : World) :
  m w = (Thrown, w') → (m ≫= k) w = (Thrown, w').
Proof. intros H. by rewrite bind_run, H. Qed.

Lemma mapM_run {A B} (f : A → M B) (g : A → B) (q : A → list QueryKey)
    (l : list A) (w : World) :
  (∀ a w0, f a w0 = (Normal (g a), advance 0 (q a) w0)) →
  mapM f l w = (Normal (g <$> l), advance 0 (concat (q <$> l)) w).
Proof.
  intros Hf. revert w. induction l as [|a l IH]; intros w.
  - simpl. by rewrite advance_0.
  - simpl. erewrite bind_normal by apply Hf.
    erewrite bind_normal by apply IH.
    by rewrite advance_advance.
Qed.

(** ** The stages, run *)

Section Stages.
Variable visitedArticles : list VisitedArticle.
Variable queryClient : Api.
Variable Math_random : RandomSource.

Local Abbreviation picks := (picks Math_random).
Local Abbreviation link_outcomes := (link_outcomes queryClient Math_random).
Local Abbreviation link_keys := (link_keys Math_random).

Lemma random_run (w : World) :
  random Math_random w = (Normal (Math_random (random_calls w)), advance 1 [] w).
Proof.
  unfold random, advance. by rewrite Nat.add_1_r, app_nil_r.
Qed.

Lemma sample_loop_run (remaining : nat) (pool : list nat)
    (src : list (option VisitedArticle)) (w : World) :
  sample_loop visitedArticles Math_random remaining pool src w =
  (Normal (src ++ ((visitedArticles !!.) <$> picks (random_calls w) remaining pool)),
   advance (length (picks (random_calls w) remaining pool)) [] w).
Proof.
  revert pool src w. induction remaining as [|k IH]; intros pool src w.
  - simpl. by rewrite app_nil_r, advance_0.
  - simpl. case_decide as Hsz.
    + erewrite bind_normal by apply random_run.
      destruct (lookup_lt_is_Some_2 pool
                  (floor_scaled (Math_random (random_calls w)) (length pool)))
        as [x Hx]; [by apply floor_scaled_lt|].
      rewrite Hx. simpl. rewrite IH. simpl.
      rewrite Nat.add_1_r, <- app_assoc. f_equal.
      by rewrite advance_advance.
    + assert (pool = []) as -> by (destruct pool; simpl in *; [done|lia]).
      simpl. by rewrite app_nil_r, advance_0.
Qed.

Lemma sampleSourceArticles_run (limit : Z) (w : World) :
  sampleSourceArticles visitedArticles Math_random
    (maxSourceArticles_of visitedArticles limit) w =
  (Normal ((visitedArticles !!.) <$>
             sourceIndices visitedArticles Math_random (random_calls w) limit),
   advance (length (sourceIndices visitedArticles Math_random (random_calls w) limit))
     [] w).
Proof. unfold sampleSourceArticles. by rewrite sample_loop_run. Qed.

Lemma linkTask_run (article : option VisitedArticle) (w : World) :
  linkTask queryClient Math_random article w =
  (Normal (link_outcome queryClient (Math_random (random_calls w)) article),
   advance 1 (link_query (Math_random (random_calls w)) article) w).
Proof.
  unfold linkTask. erewrite bind_normal by apply random_run.
  unfold try_catch, link_outcome, link_query, link_fetch, link_key, fetchQuery, throw.
  destruct article as [a|]; simpl; [|done].
  destruct (above_half _); simpl.
  - destruct (fetchArticleBacklinks _ _); simpl;
      unfold advance; simpl; by rewrite app_nil_r.
  - destruct (fetchArticleLinks _ _); simpl;
      unfold advance; simpl; by rewrite app_nil_r.
Qed.

Lemma linkTasks_run (sources : list (option VisitedArticle)) (w : World) :
  mapM (linkTask queryClient Math_random) sources w =
  (Normal (link_outcomes (random_calls w) sources),
   advance (length sources) (link_keys (random_calls w) sources) w).
Proof.
  revert w. induction sources as [|a rest IH]; intros w.
  - simpl. by rewrite advance_0.
  - simpl. erewrite bind_normal by apply linkTask_run.
    erewrite bind_normal by apply IH. simpl.
    rewrite advance_advance, Nat.add_1_r. done.
Qed.

Lemma mergeCandidates_run (vset : gset string) (linkResults : list LinkPayload)
    (st : gset string * list string) (w : World) :
  mergeCandidates vset linkResults st w =
  (match merged vset linkResults st with
   | Some c => Normal c
   | None => Thrown
   end, w).
Proof.
  revert st. induction linkResults as [|p rest IH]; intros st; simpl; [done|].
  destruct p; [apply IH|done].
Qed.

Lemma summaryTask_run (t : string) (w : World) :
  summaryTask queryClient t w =
  (Normal (resolve queryClient t), advance 0 [article t] w).
Proof.
  unfold summaryTask, try_catch, resolve, fetchQuery. rewrite bind_run.
  unfold advance. rewrite Nat.add_0_r.
  destruct (fetchArticleSummary _ _) as [[s|]|]; done.
Qed.

Lemma summaryTasks_run (ts : list string) (w : World) :
  mapM (summaryTask queryClient) ts w =
  (Normal (resolve queryClient <$> ts), advance 0 (article <$> ts) w).
Proof.
  rewrite (mapM_run _ (resolve queryClient) (λ t, [article t])).
  - do 2 f_equal. induction ts; simpl; by f_equal.
  - apply summaryTask_run.
Qed.

End Stages.

(** ** The final loop: non-null results, at most [limit] of them *)

Lemma collect_from (limit : Z) (results : list (option RecommendationItem))
    (acc : list RecommendationItem) :
  foldl (λ recommendations result,
           match result with
           | Some r =>
               if decide (Z.of_nat (length recommendations) < limit)
               then recommendations ++ [r]
               else recommendations
           | None => recommendations
           end) acc results =
  acc ++ take (Z.to_nat limit - length acc) (omap id results).
Proof.
  revert acc. induction results as [|[r|] rest IH]; intros acc; simpl.
  - by rewrite take_nil, app_nil_r.
  - rewrite IH. case_decide as Hlt.
    + rewrite length_app. simpl. rewrite <- app_assoc. f_equal.
      replace (Z.to_nat limit - length acc)%nat
        with (S (Z.to_nat limit - (length acc + 1)))%nat by lia.
      done.
    + replace (Z.to_nat limit - length acc)%nat with 0%nat by lia. done.
  - apply IH.
Qed.

Lemma collect_eq (limit : Z) (results : list (option RecommendationItem)) :
  collect limit results = take (Z.to_nat limit) (omap id results).
Proof. unfold collect. rewrite collect_from. simpl. by rewrite Nat.sub_0_r. Qed.

(** ** The index pool *)

Lemma filter_ne_length (x : nat) (pool : list nat) :
  NoDup pool → x ∈ pool →
  S (length (filter (λ y, y ≠ x) pool)) = length pool.
Proof.
  induction 1 as [|y pool Hy Hnd IH]; intros Hin.
  - by apply elem_of_nil in Hin.
  - apply elem_of_cons in Hin as [->|Hin].
    + rewrite filter_cons_False by tauto. simpl. f_equal.
      clear IH Hnd. induction pool as [|z pool IH]; [done|].
      apply not_elem_of_cons in Hy as [Hne Hy].
      rewrite filter_cons_True by done. simpl. f_equal. by apply IH.
    + rewrite filter_cons_True by (intros ->; done). simpl. f_equal. by apply IH.
Qed.

Section Pool.
Variable Math_random : RandomSource.

Lemma picks_subset (calls remaining : nat) (pool : list nat) (x : nat) :
  x ∈ picks Math_random calls remaining pool → x ∈ pool.
Proof.
  revert calls pool. induction remaining as [|k IH]; intros calls pool; simpl.
  - intros H. by apply elem_of_nil in H.
  - destruct (pool !! _) as [y|] eqn:Hy.
    + intros [->|Hin]%elem_of_cons.
      * by eapply list_elem_of_lookup_2.
      * apply IH in Hin. by apply list_elem_of_filter in Hin as [_ ?].
    + intros H. by apply elem_of_nil in H.
Qed.

Lemma picks_NoDup (calls remaining : nat) (pool : list nat) :
  NoDup (picks Math_random calls remaining pool).
Proof.
  revert calls pool. induction remaining as [|k IH]; intros calls pool; simpl.
  - constructor.
  - destruct (pool !! _) as [y|] eqn:Hy; [|constructor].
    apply NoDup_cons. split; [|apply IH].
    intros Hin%picks_subset. apply list_elem_of_filter in Hin as [Hne _]. done.
Qed.

Lemma picks_length (calls remaining : nat) (pool : list nat) :
  NoDup pool →
  length (picks Math_random calls remaining pool) = (remaining `min` length pool)%nat.
Proof.
  revert calls pool. induction remaining as [|k IH]; intros calls pool Hnd.
  - done.
  - cbn [picks]. destruct (pool !! _) as [y|] eqn:Hy.
    + cbn [length]. rewrite IH by by apply NoDup_filter.
      pose proof (filter_ne_length y pool Hnd (list_elem_of_lookup_2 _ _ _ Hy)).
      lia.
    + apply lookup_ge_None in Hy.
      pose proof (floor_scaled_lt (Math_random calls) (length pool)).
      cbn [length]. lia.
Qed.

End Pool.

(** ** The flatten-and-filter pass *)

Lemma merge_title_inv (vset : gset string) (st : gset string * list string)
    (t : string) :
  merge_inv vset st → merge_inv vset (merge_title vset st t).
Proof.
  destruct st as [seen cands]. intros (Hnd & Hseen & Hvis).
  unfold merge_title. case_decide as Hfresh; [|done].
  destruct Hfresh as [Hv Hp]. repeat split; simpl in *.
  - apply NoDup_app. repeat split; [done| |apply NoDup_singleton].
    intros u Hu Hu'. apply list_elem_of_singleton in Hu' as ->.
    apply Hp, Hseen, Hu.
  - intros u [Hu|Hu]%elem_of_app.
    + apply elem_of_union_r, Hseen, Hu.
    + apply list_elem_of_singleton in Hu as ->. by apply elem_of_union_l, elem_of_singleton.
  - intros u [Hu|Hu]%elem_of_app; [by apply Hvis|].
    by apply list_elem_of_singleton in Hu as ->.
Qed.

Lemma merge_titles_inv (vset : gset string) (linkList : list string)
    (st : gset string * list string) :
  merge_inv vset st → merge_inv vset (foldl (merge_title vset) st linkList).
Proof.
  revert st. induction linkList as [|t rest IH]; intros st Hst; simpl; [done|].
  by apply IH, merge_title_inv.
Qed.

Lemma merged_inv (vset : gset string) (linkResults : list LinkPayload)
    (st : gset string * list string) (cands : list string) :
  merge_inv vset st → merged vset linkResults st = Some cands →
  NoDup cands ∧ ∀ t, t ∈ cands → t ∉ vset.
Proof.
  revert st. induction linkResults as [|p rest IH]; intros st Hst; simpl.
  - intros [= <-]. destruct Hst as (? & _ & ?). done.
  - destruct p as [l|]; [|done]. by apply IH, merge_titles_inv.
Qed.

Lemma merge_inv_empty (vset : gset string) : merge_inv vset (∅, []).
Proof.
  repeat split; simpl; [constructor|intros t H|intros t H]; by apply elem_of_nil in H.
Qed.

(** ** Swaps and the index-choice loop *)

Lemma swap_length {A} (a : list A) (i j : nat) : length (swap a i j) = length a.
Proof.
  unfold swap. destruct (a !! j), (a !! i); [|done..].
  by rewrite !length_insert.
Qed.

Lemma swap_perm {A} (a : list A) (i j : nat) : swap a i j ≡ₚ a.
Proof.
  unfold swap. destruct (a !! j) eqn:Hj, (a !! i) eqn:Hi; [|done..].
  by apply Permutation_insert_swap.
Qed.

Lemma fy_from_length {A} (choose : nat → nat) (i : nat) (l : list A) :
  length (fy_from choose i l) = length l.
Proof.
  revert l. induction i as [|i IH]; intros l; simpl; [done|].
  by rewrite IH, swap_length.
Qed.

Lemma fy_from_perm {A} (choose : nat → nat) (i : nat) (l : list A) :
  fy_from choose i l ≡ₚ l.
Proof.
  revert l. induction i as [|i IH]; intros l; simpl; [done|].
  by rewrite IH, swap_perm.
Qed.

Lemma fy_from_ext {A} (c1 c2 : nat → nat) (i : nat) (l : list A) :
  (∀ k, (1 ≤ k ≤ i)%nat → c1 k = c2 k) → fy_from c1 i l = fy_from c2 i l.
Proof.
  revert l. induction i as [|i IH]; intros l Heq; simpl; [done|].
  rewrite (Heq (S i)) by lia. apply IH. intros k Hk. apply Heq. lia.
Qed.

Lemma shuffle_from_run (Math_random : RandomSource) (i : nat) (l : list string)
    (w : World) :
  shuffle_from Math_random i l w =
  (Normal (fy_from (shuffle_choices Math_random (random_calls w) i) i l),
   advance i [] w).
Proof.
  revert l w. induction i as [|i IH]; intros l w.
  - simpl. by rewrite advance_0.
  - simpl. erewrite bind_normal by apply random_run.
    rewrite IH, advance_advance. simpl. f_equal. f_equal.
    replace (shuffle_choices Math_random (random_calls w) (S i) (S i))
      with (floor_scaled (Math_random (random_calls w)) (S (i + 1))).
    + apply fy_from_ext. intros k Hk. unfold shuffle_choices.
      do 2 f_equal. lia.
    + unfold shuffle_choices. by rewrite Nat.sub_diag, Nat.add_0_r.
Qed.

Lemma shuffle_run (Math_random : RandomSource) (l : list string) (w : World) :
  shuffle Math_random l w =
  (Normal (fisher_yates
             (shuffle_choices Math_random (random_calls w) (length l - 1)) l),
   advance (length l - 1) [] w).
Proof. unfold shuffle, fisher_yates. apply shuffle_from_run. Qed.

(** ** The whole pipeline, run *)

Section Pipeline.
Variable visitedArticles : list VisitedArticle.
Variable queryClient : Api.
Variable Math_random : RandomSource.

Local Abbreviation indices := (sourceIndices visitedArticles Math_random).
Local Abbreviation pool := (candidatePool visitedArticles queryClient Math_random).
Local Abbreviation queries := (linkQueries_of visitedArticles Math_random).
Local Abbreviation shuffled := (shuffled_of visitedArticles Math_random).

Lemma gatherCandidates_run (limit : Z) (w : World) :
  gatherCandidates visitedArticles queryClient Math_random limit w =
  (match pool (random_calls w) limit with
   | Some c => Normal c
   | None => Thrown
   end,
   advance (2 * length (indices (random_calls w) limit))
     (queries (random_calls w) limit) w).
Proof.
  unfold gatherCandidates.
  erewrite bind_normal by apply sampleSourceArticles_run.
  erewrite bind_normal by apply linkTasks_run.
  rewrite mergeCandidates_run, advance_advance, length_fmap. simpl.
  rewrite Nat.add_0_r. done.
Qed.

Lemma summaryPromises_run (limit fetchLimit : Z) (candidateTitles : list string)
    (w : World) :
  summaryPromises queryClient limit fetchLimit candidateTitles w =
  let sel := if decide (0 < limit)
             then take (Z.to_nat fetchLimit) candidateTitles else [] in
  (Normal (resolve queryClient <$> sel), advance 0 (article <$> sel) w).
Proof.
  unfold summaryPromises. cbn zeta.
  change (Z.of_nat (length (@nil RecommendationItem))) with 0.
  destruct (decide (0 < limit)).
  - apply summaryTasks_run.
  - simpl. by rewrite advance_0.
Qed.

Lemma recommend_run (limit : Z) (w : World) :
  visitedArticles ≠ [] →
  recommend visitedArticles queryClient Math_random limit w =
  match pool (random_calls w) limit with
  | Some cands =>
      let sel := selectedTitles limit (shuffled (random_calls w) limit cands) in
      (Normal (collect limit (resolve queryClient <$> sel)),
       advance (2 * length (indices (random_calls w) limit) + (length cands - 1))
         (queries (random_calls w) limit ++ (article <$> sel)) w)
  | None =>
      (Thrown,
       advance (2 * length (indices (random_calls w) limit))
         (queries (random_calls w) limit) w)
  end.
Proof.
  intros Hne. unfold recommend.
  case_decide as Hlen; [by destruct visitedArticles|].
  rewrite bind_run, gatherCandidates_run.
  destruct (pool (random_calls w) limit) as [cands|]; [|done].
  erewrite bind_normal by apply shuffle_run.
  erewrite bind_normal by apply summaryPromises_run.
  unfold mret, M_ret, selectedTitles, shuffled_of.
  rewrite !advance_advance. cbn [random_calls advance].
  by rewrite ?app_nil_r, ?Nat.add_0_r.
Qed.

Lemma getRecommendations_run (limit : Z) (w : World) :
  getRecommendations visitedArticles queryClient Math_random limit w =
  let w0 := {| random_calls := random_calls w; issued := issued w;
               loading := true; error := None |} in
  match recommend visitedArticles queryClient Math_random limit w0 with
  | (Normal recs, w') => (Normal recs, clearLoading w')
  | (Thrown, w') =>
      (Normal [],
       {| random_calls := random_calls w'; issued := issued w'; loading := false;
          error := Some "Failed to fetch recommendations" |})
  end.
Proof.
  unfold getRecommendations, try_finally, try_catch, mbind, M_bind,
    setLoading, setError, mret, M_ret.
  cbn [random_calls issued loading error].
  destruct (recommend _ _ _ _ _) as [[recs|] w']; done.
Qed.

End Pipeline.

(** ** Queries on record *)

Lemma summary_queries_article (ts : list string) :
  omap (λ q, match q with article t => Some t | _ => None end) (article <$> ts) = ts.
Proof. induction ts as [|t ts IH]; simpl; [done|]. f_equal. exact IH. Qed.

Lemma summary_queries_link_keys (Math_random : RandomSource) (calls : nat)
    (sources : list (option VisitedArticle)) :
  omap (λ q, match q with article t => Some t | _ => None end)
    (link_keys Math_random calls sources) = [].
Proof.
  revert calls. induction sources as [|a rest IH]; intros calls; simpl; [done|].
  rewrite omap_app, IH, app_nil_r.
  destruct a as [a|]; simpl; [|done].
  unfold link_key. by destruct (above_half _).
Qed.

Lemma selectedTitles_eq (limit : Z) (shuffled : list string) :
  selectedTitles limit shuffled = take (Z.to_nat limit) shuffled.
Proof.
  unfold selectedTitles, slice0. case_decide as Hpos; [|].
  - case_decide; [lia|]. rewrite take_take, length_take.
    destruct (decide (Z.to_nat limit ≤ length shuffled)%nat).
    + f_equal. lia.
    + rewrite (take_ge shuffled (Z.to_nat limit)) by lia. apply take_ge. lia.
  - replace (Z.to_nat limit) with 0%nat by lia. done.
Qed.

Lemma omap_resolve (queryClient : Api) (ts : list string) :
  omap id (resolve queryClient <$> ts) = omap (resolve queryClient) ts.
Proof.
  induction ts as [|t ts IH]; csimpl; [done|].
  destruct (resolve queryClient t); csimpl; [f_equal|]; apply IH.
Qed.

Lemma length_omap_le {A B} (f : A → option B) (l : list A) :
  (length (omap f l) ≤ length l)%nat.
Proof. induction l as [|a l IH]; csimpl; [done|]. destruct (f a); csimpl; lia. Qed.

(** The items returned for the selected titles: every non-null resolution, in
    the order of the titles. *)
Lemma collect_selected (queryClient : Api) (limit : Z) (shuffled : list string) :
  collect limit (resolve queryClient <$> selectedTitles limit shuffled) =
  omap (resolve queryClient) (selectedTitles limit shuffled).
Proof.
  rewrite collect_eq, omap_resolve. apply take_ge.
  etrans; [apply length_omap_le|].
  rewrite selectedTitles_eq, length_take. lia.
Qed.

Lemma ceil_half_nonpos (limit : Z) : limit <= 0 → ceil_half limit <= 0.
Proof.
  intros Hle. rewrite ceil_half_eq.
  pose proof (Z.mod_pos_bound (limit + 1) 2).
  pose proof (Z.div_mod (limit + 1) 2). lia.
Qed.

(** ** Early returns *)

(** C8: with an empty visited history [getRecommendations] resolves to the
    empty list; it calls no fetcher (the record of issued queries is
    unchanged, as is the count of random calls), [error] is [null] and
    [loading] is [false] afterwards. *)
Theorem C8_empty_history_no_requests (queryClient : Api)
    (Math_random : RandomSource) (limit : Z) (w : World) :
  getRecommendations [] queryClient Math_random limit w =
  (Normal [], settled_quietly w).
Proof. by rewrite getRecommendations_run. Qed.

(** C9: for every [limit <= 0] and every visited history the sampler selects
    no source article, and [getRecommendations] resolves to the empty list
    with [error] [null], having issued no link or summary query. *)
Theorem C9_nonpositive_limit (visitedArticles : list VisitedArticle)
    (queryClient : Api) (Math_random : RandomSource) (limit : Z) (w : World) :
  limit <= 0 →
  sampleSourceArticles visitedArticles Math_random
    (Z.min (Z.of_nat (length visitedArticles)) (ceil_half limit)) w = (Normal [], w) ∧
  getRecommendations visitedArticles queryClient Math_random limit w =
  (Normal [], settled_quietly w).
Proof.
  intros Hle. pose proof (ceil_half_nonpos limit Hle) as Hceil.
  assert (Hmax : Z.to_nat (Z.min (Z.of_nat (length visitedArticles)) (ceil_half limit))
                 = 0%nat) by lia.
  split.
  - unfold sampleSourceArticles. by rewrite Hmax.
  - destruct (decide (visitedArticles = [])) as [->|Hne].
    { by rewrite getRecommendations_run. }
    rewrite getRecommendations_run. cbn zeta. rewrite recommend_run by done.
    unfold candidatePool, linkResults_of, linkQueries_of, sourceArticles_of,
      sourceIndices, maxSourceArticles_of.
    rewrite Hmax. simpl.
    rewrite selectedTitles_eq. replace (Z.to_nat limit) with 0%nat by lia.
    simpl. unfold clearLoading, settled_quietly. simpl.
    by rewrite Nat.add_0_r, app_nil_r.
Qed.

(** C9 at the history [A, B] and [limit = -3]. *)
Lemma C9_nonpositive_limit_witness :
  sampleSourceArticles visited_AB eighths
    (Z.min (Z.of_nat (length visited_AB)) (ceil_half (-3))) idle = (Normal [], idle) ∧
  getRecommendations visited_AB api_eight eighths (-3) idle =
  (Normal [], settled_quietly idle).
Proof. apply (C9_nonpositive_limit visited_AB api_eight eighths (-3) idle). lia. Defined.

(** ** The top-level handler *)

Lemma recommend_error (visitedArticles : list VisitedArticle) (queryClient : Api)
    (Math_random : RandomSource) (limit : Z) (w : World) :
  error (snd (recommend visitedArticles queryClient Math_random limit w)) = error w.
Proof.
  destruct (decide (visitedArticles = [])) as [->|Hne]; [done|].
  rewrite recommend_run by done.
  by destruct (candidatePool _ _ _ _ _).
Qed.

(** C6: [getRecommendations] never rejects.  Whatever the history, the
    fetchers and the random source do, the call completes normally with
    [loading] cleared; when the [try] block throws, the result is the empty
    list and [error] is the user-facing message; when it returns, the result
    is what it returned and [error] stays [null]. *)
Theorem C6_never_rejects (visitedArticles : list VisitedArticle)
    (queryClient : Api) (Math_random : RandomSource) (limit : Z) (w : World) :
  ∃ recs w',
    getRecommendations visitedArticles queryClient Math_random limit w
      = (Normal recs, w') ∧
    loading w' = false ∧
    match fst (recommend visitedArticles queryClient Math_random limit (started w)) with
    | Normal r => recs = r ∧ error w' = None
    | Thrown => recs = [] ∧ error w' = Some "Failed to fetch recommendations"
    end.
Proof.
  rewrite getRecommendations_run. cbn zeta. fold (started w).
  pose proof (recommend_error visitedArticles queryClient Math_random limit (started w))
    as Herr.
  destruct (recommend _ _ _ _ _) as [[r|] w1]; simpl in *.
  - exists r, (clearLoading w1). by rewrite <- Herr.
  - by eexists _, _.
Qed.

(** An exception does escape the stages on some inputs: a link query that
    resolves to a value that cannot be iterated makes the flatten pass throw,
    and the handler turns it into the empty list and the error message. *)
Lemma escaping_exception_is_caught :
  fst (recommend visited_AB api_faulty (constant_draw 1 4 eq_refl) 4 (started idle))
    = Thrown ∧
  getRecommendations visited_AB api_faulty (constant_draw 1 4 eq_refl) 4 idle =
  (Normal [],
   {| random_calls := 4; issued := [article_links "A"; article_links "B"];
      loading := false; error := Some "Failed to fetch recommendations" |}).
Proof. split; vm_compute; reflexivity. Qed.

(** ** Summary resolution *)

(** The summary queries a call issues from a fresh hook are the first
    [limit] candidates of the shuffled pool. *)
Lemma getRecommendations_idle (visitedArticles : list VisitedArticle)
    (queryClient : Api) (Math_random : RandomSource) (limit : Z) :
  ∃ recs w',
    getRecommendations visitedArticles queryClient Math_random limit idle
      = (Normal recs, w') ∧
    recs = omap (resolve queryClient) (summary_queries w') ∧
    (Z.of_nat (length (summary_queries w')) <= Z.max 0 limit) ∧
    match candidatePool visitedArticles queryClient Math_random 0 limit with
    | Some cands =>
        visitedArticles ≠ [] →
        summary_queries w' =
        take (Z.to_nat limit) (shuffled_of visitedArticles Math_random 0 limit cands)
    | None => summary_queries w' = []
    end.
Proof.
  destruct (decide (visitedArticles = [])) as [->|Hne].
  { exists [], (settled_quietly idle). rewrite getRecommendations_run.
    repeat split; [simpl; lia|]. by destruct (candidatePool _ _ _ _ _). }
  rewrite getRecommendations_run. cbn zeta. rewrite recommend_run by done.
  unfold clearLoading, advance, summary_queries, linkQueries_of.
  cbn [random_calls issued loading error idle].
  destruct (candidatePool _ _ _ _ _) as [cands|].
  - cbn zeta. eexists _, _. split; [reflexivity|]. cbn [issued app].
    rewrite omap_app, summary_queries_link_keys, summary_queries_article.
    rewrite app_nil_l.
    split; [apply collect_selected|]. split.
    + rewrite selectedTitles_eq, length_take. lia.
    + intros _. apply selectedTitles_eq.
  - eexists _, _. split; [reflexivity|]. cbn [issued app].
    rewrite summary_queries_link_keys. repeat split. simpl. lia.
Qed.

(** The number of summary queries of a call: the candidate count capped by
    [limit] itself; the five extra slots of [fetchLimit] are never used. *)
Lemma summary_query_count (visitedArticles : list VisitedArticle)
    (queryClient : Api) (Math_random : RandomSource) (limit : Z)
    (cands : list string) :
  visitedArticles ≠ [] →
  candidatePool visitedArticles queryClient Math_random 0 limit = Some cands →
  Z.of_nat (length (summary_queries
     (snd (getRecommendations visitedArticles queryClient Math_random limit idle)))) =
  Z.min (Z.of_nat (length cands)) (Z.max 0 limit).
Proof.
  intros Hne Hpool.
  destruct (getRecommendations_idle visitedArticles queryClient Math_random limit)
    as (recs & w' & -> & _ & _ & Hsel).
  rewrite Hpool in Hsel. simpl. rewrite (Hsel Hne), length_take.
  unfold shuffled_of, fisher_yates. rewrite fy_from_length. lia.
Qed.

(** C1: at one visited article, limit 1 and eight candidates, the merge step
    produces eight candidates, so [min(candidateCount, limit + 5)] is 6, yet
    exactly one summary query is issued. *)
Theorem C1_no_slack_beyond_limit :
  fst (gatherCandidates visited_A api_eight eighths 1 (started idle)) =
    Normal ["X1"; "X2"; "X3"; "X4"; "X5"; "X6"; "X7"; "X8"] ∧
  Z.min 8 (1 + 5) = 6 ∧
  summary_queries (snd (getRecommendations visited_A api_eight eighths 1 idle)) =
    ["X3"].
Proof. repeat split; vm_compute; reflexivity. Qed.

(** C2, as stated, fails: a candidate whose summary response carries no
    article is selected and queried, and then dropped from the result. *)
Lemma C2_counterexample :
  let run := getRecommendations visited_A api_absent eighths 1 idle in
  ¬ (∀ t, t ∈ summary_queries (snd run) →
          ∃ r recs, fst run = Normal recs ∧ r ∈ recs ∧
            match fetchArticleSummary api_absent t with
            | Fulfilled (Some s) => r = item_of_summary s
            | _ => r = basic_item t
            end).
Proof.
  intros run Hall.
  destruct (Hall "X") as (r & recs & Hrun & Hin & _).
  - vm_compute. apply list_elem_of_here.
  - vm_compute in Hrun. injection Hrun as <-. by apply elem_of_nil in Hin.
Qed.

(** C2, amended: every title selected for summary resolution yields the full
    record when its query resolves to an article, the basic item when its
    query fails, and nothing when its query resolves without an article; the
    result is the first [limit] of the items so obtained, in the order in
    which the titles were selected. *)
Theorem C2_selected_resolution (visitedArticles : list VisitedArticle)
    (queryClient : Api) (Math_random : RandomSource) (limit : Z) :
  ∃ recs w',
    getRecommendations visitedArticles queryClient Math_random limit idle
      = (Normal recs, w') ∧
    recs = take (Z.to_nat limit) (omap (resolve queryClient) (summary_queries w')) ∧
    ∀ t, t ∈ summary_queries w' →
      match fetchArticleSummary queryClient t with
      | Fulfilled (Some s) => item_of_summary s ∈ recs
      | Fulfilled None => resolve queryClient t = None
      | Rejected => basic_item t ∈ recs
      end.
Proof.
  destruct (getRecommendations_idle visitedArticles queryClient Math_random limit)
    as (recs & w' & Hrun & Hrecs & Hlen & _).
  exists recs, w'. split; [done|]. split.
  - rewrite Hrecs. symmetry. apply take_ge.
    etrans; [apply length_omap_le|]. lia.
  - intros t Ht.
    assert (Hres : ∀ r, resolve queryClient t = Some r → r ∈ recs).
    { intros r Hr. rewrite Hrecs. apply list_elem_of_omap. eauto. }
    unfold resolve in *.
    destruct (fetchArticleSummary queryClient t) as [[s|]|]; auto.
Qed.

(** ** The source-article sampler *)

(** C5, as stated, fails for [limit = -2]: [min(N, ceil(limit/2))] is then
    [-1], and the sampler selects no article. *)
Lemma C5_counterexample :
  ¬ (∀ srcs w',
       sampleSourceArticles visited_A eighths
         (Z.min (Z.of_nat (length visited_A)) (ceil_half (-2))) idle = (Normal srcs, w') →
       Z.of_nat (length srcs) = Z.min (Z.of_nat (length visited_A)) (ceil_half (-2))).
Proof.
  intros Hall. specialize (Hall [] idle eq_refl). vm_compute in Hall. discriminate.
Qed.

(** C5, amended: for every history of size [N] and every limit the sampler
    selects exactly [max(0, min(N, ceil(limit/2)))] source articles, read at
    pairwise distinct indices of the history, one random call each. *)
Theorem C5_sampler_distinct (visitedArticles : list VisitedArticle)
    (Math_random : RandomSource) (limit : Z) (w : World) :
  ∃ idxs : list nat,
    sampleSourceArticles visitedArticles Math_random
      (Z.min (Z.of_nat (length visitedArticles)) (ceil_half limit)) w
      = (Normal ((visitedArticles !!.) <$> idxs), advance (length idxs) [] w) ∧
    NoDup idxs ∧
    (∀ i, i ∈ idxs → (i < length visitedArticles)%nat) ∧
    Z.of_nat (length idxs) =
      Z.max 0 (Z.min (Z.of_nat (length visitedArticles)) (ceil_half limit)).
Proof.
  exists (sourceIndices visitedArticles Math_random (random_calls w) limit).
  split; [apply sampleSourceArticles_run|].
  unfold sourceIndices, maxSourceArticles_of. split; [apply picks_NoDup|]. split.
  - intros i Hi%picks_subset. apply elem_of_seq in Hi. lia.
  - rewrite picks_length by apply NoDup_seq. rewrite length_seq. lia.
Qed.

(** ** Distinct, unvisited results *)

Lemma candidatePool_inv (visitedArticles : list VisitedArticle) (queryClient : Api)
    (Math_random : RandomSource) (calls : nat) (limit : Z) (cands : list string) :
  candidatePool visitedArticles queryClient Math_random calls limit = Some cands →
  NoDup cands ∧ ∀ t, t ∈ cands → t ∉ v_title <$> visitedArticles.
Proof.
  intros Hpool. apply merged_inv in Hpool as [Hnd Hvis]; [|apply merge_inv_empty].
  split; [done|]. intros t Ht Hin. apply (Hvis t Ht).
  by apply elem_of_list_to_set.
Qed.

Lemma resolve_title (queryClient : Api) (t : string) (r : RecommendationItem) :
  (∀ u s, fetchArticleSummary queryClient u = Fulfilled (Some s) → s_title s = u) →
  resolve queryClient t = Some r → title r = t.
Proof.
  intros Hecho. unfold resolve.
  destruct (fetchArticleSummary queryClient t) as [[s|]|] eqn:Hf; intros [= <-].
  - simpl. by apply Hecho.
  - done.
Qed.

Lemma resolved_titles_selected (queryClient : Api) (ts : list string) :
  (∀ t s, t ∈ ts → fetchArticleSummary queryClient t = Fulfilled (Some s) →
          s_title s = t) →
  (title <$> omap (resolve queryClient) ts) `sublist_of` ts.
Proof.
  induction ts as [|t ts IH]; intros Hecho; csimpl; [done|].
  assert (Hrest : (title <$> omap (resolve queryClient) ts) `sublist_of` ts).
  { apply IH. intros u s Hu. apply Hecho. by apply list_elem_of_further. }
  destruct (resolve queryClient t) as [r|] eqn:Hr; csimpl; [|by apply sublist_cons].
  assert (title r = t) as ->; [|by apply sublist_skip].
  unfold resolve in Hr.
  destruct (fetchArticleSummary queryClient t) as [[s|]|] eqn:Hf;
    [|discriminate|by injection Hr as <-].
  injection Hr as <-. simpl. apply (Hecho t s); [apply list_elem_of_here|done].
Qed.

(** C3, as stated, fails twice.  At limit 2 the title of a result is the one
    carried by the summary response, which need not be the title that was
    asked for: two results carry the title of the visited article [A].  At
    limit -1 the result is the empty list, which has more than -1 items. *)
Lemma C3_counterexample :
  (∃ recs w',
     getRecommendations visited_A api_same eighths 2 idle = (Normal recs, w') ∧
     ¬ (Z.of_nat (length recs) <= 2 ∧ NoDup (title <$> recs) ∧
        ∀ r, r ∈ recs → title r ∉ v_title <$> visited_A)) ∧
  (∃ recs w',
     getRecommendations visited_A api_eight eighths (-1) idle = (Normal recs, w') ∧
     ¬ (Z.of_nat (length recs) <= -1 ∧ NoDup (title <$> recs) ∧
        ∀ r, r ∈ recs → title r ∉ v_title <$> visited_A)).
Proof.
  split.
  - eexists _, _. split; [vm_compute; reflexivity|].
    intros (_ & Hnd & _). simpl in Hnd.
    apply NoDup_cons in Hnd as [Hnotin _]. apply Hnotin, list_elem_of_here.
  - eexists _, _. split; [vm_compute; reflexivity|].
    intros (Hlen & _). simpl in Hlen. lia.
Qed.

(** C3, amended: for every visited history and every limit the call resolves
    to at most [max(0, limit)] items.  The candidate titles submitted for
    summary resolution are pairwise distinct and none is the title of a
    visited article; when every summary response received for them carries
    the title that was asked for, the same holds of the titles of the
    items. *)
Theorem C3_distinct_unvisited (visitedArticles : list VisitedArticle)
    (queryClient : Api) (Math_random : RandomSource) (limit : Z) :
  ∃ recs w',
    getRecommendations visitedArticles queryClient Math_random limit idle
      = (Normal recs, w') ∧
    Z.of_nat (length recs) <= Z.max 0 limit ∧
    NoDup (summary_queries w') ∧
    (∀ t, t ∈ summary_queries w' → t ∉ v_title <$> visitedArticles) ∧
    ((∀ t s, t ∈ summary_queries w' →
             fetchArticleSummary queryClient t = Fulfilled (Some s) → s_title s = t) →
     NoDup (title <$> recs) ∧
     ∀ r, r ∈ recs → title r ∉ v_title <$> visitedArticles).
Proof.
  destruct (getRecommendations_idle visitedArticles queryClient Math_random limit)
    as (recs & w' & Hrun & Hrecs & Hlen & Hsel).
  exists recs, w'. split; [done|].
  split.
  { rewrite Hrecs. pose proof (length_omap_le (resolve queryClient) (summary_queries w')).
    lia. }
  assert (Hcands : NoDup (summary_queries w') ∧
                   ∀ t, t ∈ summary_queries w' → t ∉ v_title <$> visitedArticles).
  { destruct (candidatePool visitedArticles queryClient Math_random 0 limit)
      as [cands|] eqn:Hpool.
    - destruct (decide (visitedArticles = [])) as [->|Hne].
      { rewrite getRecommendations_run in Hrun. injection Hrun as <- <-.
        split; [constructor|]. intros t Ht. by apply elem_of_nil in Ht. }
      specialize (Hsel Hne).
      apply candidatePool_inv in Hpool as [Hnd Hvis].
      assert (Hperm : shuffled_of visitedArticles Math_random 0 limit cands ≡ₚ cands)
        by apply fy_from_perm.
      assert (Hsub : summary_queries w' `sublist_of`
                     shuffled_of visitedArticles Math_random 0 limit cands).
      { rewrite Hsel. apply sublist_take. }
      split.
      + eapply sublist_NoDup; [|exact Hsub]. by rewrite Hperm.
      + intros t Ht. apply Hvis. rewrite <- Hperm.
        eapply elem_of_sublist; [exact Ht|exact Hsub].
    - rewrite Hsel. split; [constructor|]. intros t Ht. by apply elem_of_nil in Ht. }
  destruct Hcands as [Hnd Hvis]. split; [exact Hnd|]. split; [exact Hvis|].
  intros Hecho.
  pose proof (resolved_titles_selected queryClient (summary_queries w') Hecho) as Hsub.
  rewrite <- Hrecs in Hsub. split.
  - eapply sublist_NoDup; [exact Hnd|exact Hsub].
  - intros r Hr. apply Hvis.
    eapply elem_of_sublist; [|exact Hsub]. by apply list_elem_of_fmap_2.
Qed.

(** C3 at the history [A, B], limit 3 and fetchers whose summaries carry the
    requested title. *)
Lemma C3_distinct_unvisited_witness :
  ∃ recs w',
    getRecommendations visited_AB api_eight eighths 3 idle = (Normal recs, w') ∧
    Z.of_nat (length recs) <= Z.max 0 3 ∧
    NoDup (title <$> recs) ∧
    ∀ r, r ∈ recs → title r ∉ v_title <$> visited_AB.
Proof.
  destruct (C3_distinct_unvisited visited_AB api_eight eighths 3)
    as (recs & w' & Hrun & Hlen & _ & _ & Hecho).
  exists recs, w'. split; [exact Hrun|]. split; [exact Hlen|].
  apply Hecho. intros t s _ [= <-]. reflexivity.
Defined.

(** ** Link fan-out: one result per source *)

Lemma link_outcomes_length (queryClient : Api) (Math_random : RandomSource)
    (calls : nat) (sources : list (option VisitedArticle)) :
  length (link_outcomes queryClient Math_random calls sources) = length sources.
Proof.
  revert calls. induction sources as [|a rest IH]; intros calls; simpl; [done|].
  by rewrite IH.
Qed.

Lemma link_outcomes_lookup (queryClient : Api) (Math_random : RandomSource)
    (calls : nat) (sources : list (option VisitedArticle)) (k : nat) :
  link_outcomes queryClient Math_random calls sources !! k =
  link_outcome queryClient (Math_random (calls + k)%nat) <$> sources !! k.
Proof.
  revert calls k. induction sources as [|a rest IH]; intros calls k; [done|].
  destruct k as [|k]; simpl.
  - by rewrite Nat.add_0_r.
  - rewrite IH. by replace (S calls + k)%nat with (calls + S k)%nat by lia.
Qed.

(** ** The shuffle: a bijection from index choices to permutations *)

Section FisherYates.
Context {A : Type}.
Implicit Types (l p : list A) (c : nat → nat).










End FisherYates.



(** ** Uniform draws and the indices they give *)






(** ** The single-pick callbacks *)

(** X1: [getRandomVisitedArticle] never throws and issues no query.  On an
    empty history it returns [null] without drawing; otherwise it draws once
    and returns an entry of the history. *)
Theorem X1_random_visited_article (visitedArticles : list VisitedArticle)
    (Math_random : RandomSource) (w : World) :
  ∃ res w',
    getRandomVisitedArticle visitedArticles Math_random w = (Normal res, w') ∧
    match res with
    | None => visitedArticles = [] ∧ w' = w
    | Some a => a ∈ visitedArticles ∧ w' = advance 1 [] w
    end.
Proof.
  unfold getRandomVisitedArticle. case_decide as Hlen.
  - exists None, w. split; [done|]. by destruct visitedArticles.
  - erewrite bind_normal by apply random_run. cbn zeta.
    destruct (lookup_lt_is_Some_2 visitedArticles
                (floor_scaled (Math_random (random_calls w)) (length visitedArticles)))
      as [a Ha]; [apply floor_scaled_lt; lia|].
    exists (Some a), (advance 1 [] w). rewrite Ha. split; [done|].
    split; [by eapply list_elem_of_lookup_2|done].
Qed.

(** X2: on a history of [N] entries, [N < 2^32], and a draw [r], the entry
    returned is the one at index [floor(r * N)] or, when the binary64 product
    rounds up to the next integer, the one after it; it is the one at
    [floor(r * N)] whenever [r * N], enlarged by [2^-53] of itself, stays
    below the next integer. *)
Theorem X2_random_visited_article_index (visitedArticles : list VisitedArticle)
    (Math_random : RandomSource) (w : World) :
  visitedArticles ≠ [] → Z.of_nat (length visitedArticles) < 2 ^ 32 →
  let x := (draw (Math_random (random_calls w))
            * inject_Z (Z.of_nat (length visitedArticles)))%Q in
  ∃ i : nat,
    fst (getRandomVisitedArticle visitedArticles Math_random w)
      = Normal (visitedArticles !! i) ∧
    (i < length visitedArticles)%nat ∧
    Qfloor x <= Z.of_nat i <= Qfloor x + 1 ∧
    ((x * (1 + (1 # 2 ^ 53)) < inject_Z (Qfloor x + 1))%Q → Z.of_nat i = Qfloor x).
Proof.
  intros Hne Hlen x. unfold getRandomVisitedArticle.
  case_decide as Hnil; [by destruct visitedArticles|].
  erewrite bind_normal by apply random_run. cbn zeta.
  exists (floor_scaled (Math_random (random_calls w)) (length visitedArticles)).
  split; [done|]. split; [apply floor_scaled_lt; lia|].
  assert (H32 : 2 ^ 32 < 2 ^ 53) by reflexivity.
  apply floor_scaled_near. lia.
Qed.

(** X2 at the history [A, B] and the draw 5/8. *)
Lemma X2_random_visited_article_index_witness :
  let x := (draw (eighths 0) * inject_Z (Z.of_nat (length visited_AB)))%Q in
  ∃ i : nat,
    fst (getRandomVisitedArticle visited_AB eighths idle) = Normal (visited_AB !! i) ∧
    (i < length visited_AB)%nat ∧
    Qfloor x <= Z.of_nat i <= Qfloor x + 1 ∧
    ((x * (1 + (1 # 2 ^ 53)) < inject_Z (Qfloor x + 1))%Q → Z.of_nat i = Qfloor x).
Proof.
  apply (X2_random_visited_article_index visited_AB eighths idle).
  - discriminate.
  - reflexivity.
Defined.

(** Both cases occur: the product of the draw 5/8 by 3 is exact, and the
    index is its floor; the product of [rounds_up] by 11 lies below 3 and
    rounds up to 3, and the index is one more than the exact floor. *)
Lemma binary64_product_rounds_up :
  (floor_scaled (eighths 0) 3 = 1%nat ∧
   Qfloor (draw (eighths 0) * inject_Z 3) = 1) ∧
  (floor_scaled rounds_up 11 = 3%nat ∧
   Qfloor (draw rounds_up * inject_Z 11) = 2).
Proof. repeat split; vm_compute; reflexivity. Qed.

Lemma random_link_spec (Math_random : RandomSource) (calls : nat)
    (visitedTitlesSet : gset string) (fetched : Settled LinkPayload) :
  let '(res, draws) := random_link Math_random calls visitedTitlesSet fetched in
  (∀ x, res = Some x →
     ∃ l, fetched = Fulfilled (Titles l) ∧ x ∈ l ∧ x ∉ visitedTitlesSet) ∧
  (res = None ↔
     ∀ l x, fetched = Fulfilled (Titles l) → x ∈ l → x ∈ visitedTitlesSet) ∧
  draws = match res with Some _ => 1%nat | None => 0%nat end.
Proof.
  unfold random_link. destruct fetched as [[l|]|]; try by repeat split.
  destruct (filter (λ t, t ∉ visitedTitlesSet) l) as [|y rest] eqn:Hf; cbn zeta.
  - repeat split; [done|]. intros _ l' x [= <-] Hx.
    destruct (decide (x ∈ visitedTitlesSet)) as [|Hnot]; [done|].
    assert (Hin : x ∈ filter (λ t, t ∉ visitedTitlesSet) l)
      by by apply list_elem_of_filter.
    rewrite Hf in Hin. by apply elem_of_nil in Hin.
  - destruct (lookup_lt_is_Some_2 (y :: rest)
                (floor_scaled (Math_random calls) (length (y :: rest))))
      as [x Hx]; [apply floor_scaled_lt; simpl; lia|].
    rewrite Hx. repeat split; [|done|].
    + intros x' [= <-]. exists l. split; [done|].
      apply list_elem_of_lookup_2 in Hx. rewrite <- Hf in Hx.
      by apply list_elem_of_filter in Hx as [? ?].
    + intros Hall. exfalso.
      assert (Hy : y ∈ filter (λ t, t ∉ visitedTitlesSet) l)
        by (rewrite Hf; apply list_elem_of_here).
      apply list_elem_of_filter in Hy as [Hnot Hy]. by apply Hnot, (Hall l y).
Qed.

Lemma link_picker_run (Math_random : RandomSource) (key : QueryKey)
    (vset : gset string) (fetched : Settled LinkPayload) (w : World) :
  try_catch
    (linkTitles ← fetchQuery key fetched;
     match linkTitles with
     | NotIterable => throw
     | Titles linkTitles =>
         if decide (length linkTitles = 0%nat) then mret None
         else
           let unvisited := filter (λ t, t ∉ vset) linkTitles in
           if decide (length unvisited = 0%nat) then mret None
           else
             r ← random Math_random;
             let randomIndex := floor_scaled r (length unvisited) in
             mret (unvisited !! randomIndex)
     end)
    (mret None) w =
  (Normal (fst (random_link Math_random (random_calls w) vset fetched)),
   advance (snd (random_link Math_random (random_calls w) vset fetched)) [key] w).
Proof.
  unfold try_catch, fetchQuery, random_link. rewrite bind_run.
  destruct fetched as [[l|]|]; cbn zeta iota beta.
  - case_decide as Hl.
    { destruct l; [|done]. simpl. unfold advance. simpl. by rewrite Nat.add_0_r. }
    destruct (filter (λ t, t ∉ vset) l) as [|y rest] eqn:Hf.
    + simpl. unfold advance. simpl. by rewrite Nat.add_0_r.
    + rewrite decide_False by done.
      erewrite bind_normal by apply random_run.
      cbn [fst snd]. unfold mret, M_ret, advance. simpl.
      by rewrite app_nil_r.
  - unfold throw, mret, M_ret, advance. simpl. by rewrite Nat.add_0_r.
  - unfold mret, M_ret, advance. simpl. by rewrite Nat.add_0_r.
Qed.

(** X3: [getRandomBacklink] never throws and issues exactly one query, for
    the backlinks of the given title.  A title it returns is one of the fetched
    backlinks and is not in the visited set; it returns [null] exactly when
    the query fails or offers no unvisited backlink; it draws once when it
    returns a title and not at all otherwise. *)
Theorem X3_random_backlink (queryClient : Api) (Math_random : RandomSource)
    (t : string) (visitedTitlesSet : gset string) (w : World) :
  ∃ res draws,
    getRandomBacklink queryClient Math_random t visitedTitlesSet w
      = (Normal res, advance draws [article_backlinks t] w) ∧
    (∀ x, res = Some x →
       ∃ l, fetchArticleBacklinks queryClient t = Fulfilled (Titles l) ∧
            x ∈ l ∧ x ∉ visitedTitlesSet) ∧
    (res = None ↔
       ∀ l x, fetchArticleBacklinks queryClient t = Fulfilled (Titles l) →
              x ∈ l → x ∈ visitedTitlesSet) ∧
    draws = match res with Some _ => 1%nat | None => 0%nat end.
Proof.
  pose proof (random_link_spec Math_random (random_calls w) visitedTitlesSet
                (fetchArticleBacklinks queryClient t)) as Hspec.
  destruct (random_link _ _ _ _) as [res draws] eqn:Hlink.
  exists res, draws. split; [|exact Hspec].
  unfold getRandomBacklink. rewrite link_picker_run, Hlink. done.
Qed.

(** X4: [getRandomForwardlink] never throws and issues exactly one query,
    for the forward links of the given title.  A title it returns is one of
    the fetched links and is not in the visited set; it returns [null] exactly
    when the query fails or offers no unvisited link; it draws once when it
    returns a title and not at all otherwise. *)
Theorem X4_random_forwardlink (queryClient : Api) (Math_random : RandomSource)
    (t : string) (visitedTitlesSet : gset string) (w : World) :
  ∃ res draws,
    getRandomForwardlink queryClient Math_random t visitedTitlesSet w
      = (Normal res, advance draws [article_links t] w) ∧
    (∀ x, res = Some x →
       ∃ l, fetchArticleLinks queryClient t = Fulfilled (Titles l) ∧
            x ∈ l ∧ x ∉ visitedTitlesSet) ∧
    (res = None ↔
       ∀ l x, fetchArticleLinks queryClient t = Fulfilled (Titles l) →
              x ∈ l → x ∈ visitedTitlesSet) ∧
    draws = match res with Some _ => 1%nat | None => 0%nat end.
Proof.
  pose proof (random_link_spec Math_random (random_calls w) visitedTitlesSet
                (fetchArticleLinks queryClient t)) as Hspec.
  destruct (random_link _ _ _ _) as [res draws] eqn:Hlink.
  exists res, draws. split; [|exact Hspec].
  unfold getRandomForwardlink. rewrite link_picker_run, Hlink. done.
Qed.

(** ** The candidate pool as a function of the link lists *)

Section FirstSeen.
Context {A : Type} `{EqDecision A}.
Implicit Types (l : list A) (x : A).

Lemma remove_dups_snoc l x :
  remove_dups (l ++ [x]) = filter (λ y, y ≠ x) (remove_dups l) ++ [x].
Proof.
  induction l as [|y l IH]; [done|].
  cbn [app remove_dups].
  destruct (decide_rel elem_of y (l ++ [x])) as [Hin|Hnin];
    destruct (decide_rel elem_of y l) as [Hin'|Hnin'].
  - exact IH.
  - apply elem_of_app in Hin as [?|Hx]; [done|].
    apply list_elem_of_singleton in Hx as ->.
    rewrite IH. by rewrite filter_cons_False by tauto.
  - exfalso. apply Hnin, elem_of_app. by left.
  - rewrite IH, filter_cons_True; [done|].
    intros ->. apply Hnin, elem_of_app. right. apply list_elem_of_here.
Qed.

(** Keeping the first occurrence of every element: the head stays, and the
    rest is cleared of it. *)
Lemma keep_first_cons l x :
  reverse (remove_dups (reverse (x :: l))) =
  x :: filter (λ y, y ≠ x) (reverse (remove_dups (reverse l))).
Proof.
  by rewrite reverse_cons, remove_dups_snoc, reverse_app, reverse_singleton,
    filter_reverse.
Qed.

Lemma filter_all (P : A → Prop) `{!∀ x, Decision (P x)} l :
  (∀ x, x ∈ l → P x) → filter P l = l.
Proof.
  induction l as [|y l IH]; intros Hall; [done|].
  rewrite filter_cons_True by (apply Hall, list_elem_of_here).
  f_equal. apply IH. intros x Hx. apply Hall. by apply list_elem_of_further.
Qed.

End FirstSeen.

Lemma foldl_merge_title (vset : gset string) (l : list string)
    (seen : gset string) (acc : list string) :
  (∀ t, t ∈ seen ↔ t ∈ acc) →
  (∀ t, t ∈ fst (foldl (merge_title vset) (seen, acc) l) ↔
        t ∈ snd (foldl (merge_title vset) (seen, acc) l)) ∧
  snd (foldl (merge_title vset) (seen, acc) l) =
  acc ++ filter (λ t, t ∉ acc)
           (reverse (remove_dups (reverse (filter (λ t, t ∉ vset) l)))).
Proof.
  revert seen acc. induction l as [|x l IH]; intros seen acc Hsync.
  - simpl. split; [done|]. by rewrite app_nil_r.
  - cbn [foldl]. unfold merge_title at 2 4 6. case_decide as Hfresh.
    + destruct Hfresh as [Hv Hs].
      assert (Hacc : x ∉ acc) by by rewrite <- Hsync.
      destruct (IH ({[x]} ∪ seen) (acc ++ [x])) as [Hsync' Heq].
      { intros t. rewrite elem_of_union, elem_of_singleton, elem_of_app,
          list_elem_of_singleton, Hsync. tauto. }
      split; [exact Hsync'|]. rewrite Heq.
      rewrite filter_cons_True by done. rewrite keep_first_cons.
      rewrite filter_cons_True by done. rewrite <- app_assoc. simpl. do 2 f_equal.
      rewrite list_filter_filter. apply list_filter_iff. intros t.
      rewrite elem_of_app, list_elem_of_singleton. tauto.
    + destruct (IH seen acc Hsync) as [Hsync' Heq].
      split; [exact Hsync'|]. rewrite Heq. f_equal.
      destruct (decide (x ∈ vset)) as [Hv|Hv].
      * by rewrite filter_cons_False by tauto.
      * assert (Hacc : x ∈ acc).
        { apply Hsync. destruct (decide (x ∈ seen)); [done|]. exfalso. tauto. }
        rewrite filter_cons_True by done. rewrite keep_first_cons.
        rewrite filter_cons_False by tauto.
        rewrite list_filter_filter. apply list_filter_iff. intros t.
        split; [|by intros [? _]]. intros Ht. split; [done|]. by intros ->.
Qed.

Lemma merged_titles (vset : gset string) (lists : list (list string))
    (st : gset string * list string) :
  merged vset (Titles <$> lists) st =
  Some (snd (foldl (merge_title vset) st (concat lists))).
Proof.
  revert st. induction lists as [|l lists IH]; intros st; [done|].
  csimpl. by rewrite IH, foldl_app.
Qed.

Lemma merged_not_iterable (vset : gset string) (linkResults : list LinkPayload)
    (st : gset string * list string) :
  NotIterable ∈ linkResults → merged vset linkResults st = None.
Proof.
  revert st. induction linkResults as [|p rest IH]; intros st Hin.
  - by apply elem_of_nil in Hin.
  - destruct p as [l|]; [|done]. simpl. apply IH.
    by apply elem_of_cons in Hin as [?|?].
Qed.

(** X5: the flatten-and-filter pass throws when some link result cannot be
    iterated, leaving the state as it was.  On link lists it returns the
    concatenation of the lists, without the visited titles, with every title
    kept at its first occurrence only. *)
Theorem X5_merge_first_seen (visitedTitlesSet : gset string) (w : World) :
  (∀ linkResults, NotIterable ∈ linkResults →
     mergeCandidates visitedTitlesSet linkResults (∅, []) w = (Thrown, w)) ∧
  (∀ lists : list (list string),
     mergeCandidates visitedTitlesSet (Titles <$> lists) (∅, []) w =
     (Normal (reverse (remove_dups (reverse
                (filter (λ t, t ∉ visitedTitlesSet) (concat lists))))), w)).
Proof.
  split.
  - intros lr Hin. by rewrite mergeCandidates_run, merged_not_iterable.
  - intros lists. rewrite mergeCandidates_run, merged_titles.
    destruct (foldl_merge_title visitedTitlesSet (concat lists) ∅ []) as [_ ->].
    { intros t. split; intros H; [by apply not_elem_of_empty in H|by apply elem_of_nil in H]. }
    simpl. f_equal. f_equal. apply filter_all. intros x _ H. by apply elem_of_nil in H.
Qed.

(** ** A whole call, from any state *)

Lemma getRecommendations_pool (visitedArticles : list VisitedArticle)
    (queryClient : Api) (Math_random : RandomSource) (limit : Z) (w : World) :
  visitedArticles ≠ [] →
  getRecommendations visitedArticles queryClient Math_random limit w =
  match candidatePool visitedArticles queryClient Math_random (random_calls w) limit with
  | Some cands =>
      let sel := take (Z.to_nat limit)
                   (shuffled_of visitedArticles Math_random (random_calls w) limit cands) in
      (Normal (omap (resolve queryClient) sel),
       {| random_calls :=
            random_calls w +
            (2 * length (sourceIndices visitedArticles Math_random (random_calls w) limit)
             + (length cands - 1));
          issued :=
            issued w ++
            (linkQueries_of visitedArticles Math_random (random_calls w) limit ++
             (article <$> sel));
          loading := false; error := None |})
  | None =>
      (Normal [],
       {| random_calls :=
            random_calls w +
            2 * length (sourceIndices visitedArticles Math_random (random_calls w) limit);
          issued :=
            issued w ++ linkQueries_of visitedArticles Math_random (random_calls w) limit;
          loading := false; error := Some "Failed to fetch recommendations" |})
  end.
Proof.
  intros Hne. rewrite getRecommendations_run. cbn zeta. rewrite recommend_run by done.
  cbn [random_calls]. destruct (candidatePool _ _ _ _ _) as [cands|]; [|done].
  cbn zeta. by rewrite collect_selected, selectedTitles_eq.
Qed.

Lemma link_keys_length (Math_random : RandomSource) (calls : nat)
    (sources : list (option VisitedArticle)) :
  (length (link_keys Math_random calls sources) ≤ length sources)%nat.
Proof.
  revert calls. induction sources as [|a rest IH]; intros calls; simpl; [done|].
  rewrite length_app. specialize (IH (S calls)). destruct a; simpl; lia.
Qed.

Lemma sourceIndices_length (visitedArticles : list VisitedArticle)
    (Math_random : RandomSource) (calls : nat) (limit : Z) :
  Z.of_nat (length (sourceIndices visitedArticles Math_random calls limit)) =
  Z.max 0 (Z.min (Z.of_nat (length visitedArticles)) (ceil_half limit)).
Proof.
  unfold sourceIndices, maxSourceArticles_of.
  rewrite picks_length by apply NoDup_seq. rewrite length_seq. lia.
Qed.

(** X6: a call hands at most [max(0, min(N, ceil(limit/2)))] link queries and
    at most [max(0, limit)] summary queries to the query client, whatever the
    fetchers return. *)
Theorem X6_query_budget (visitedArticles : list VisitedArticle)
    (queryClient : Api) (Math_random : RandomSource) (limit : Z) (w : World) :
  ∃ recs w' qs,
    getRecommendations visitedArticles queryClient Math_random limit w
      = (Normal recs, w') ∧
    issued w' = issued w ++ qs ∧
    Z.of_nat (length qs) <=
      Z.max 0 (Z.min (Z.of_nat (length visitedArticles)) (ceil_half limit))
      + Z.max 0 limit.
Proof.
  destruct (decide (visitedArticles = [])) as [->|Hne].
  { exists [], (settled_quietly w), []. rewrite getRecommendations_run.
    split; [done|]. split; [by rewrite app_nil_r|]. simpl. lia. }
  rewrite getRecommendations_pool by done.
  pose proof (sourceIndices_length visitedArticles Math_random (random_calls w) limit)
    as Hsrc.
  pose proof (link_keys_length Math_random
                (random_calls w +
                 length (sourceIndices visitedArticles Math_random (random_calls w) limit))
                (sourceArticles_of visitedArticles Math_random (random_calls w) limit))
    as Hkeys.
  unfold sourceArticles_of in Hkeys at 2. rewrite length_fmap in Hkeys.
  fold (linkQueries_of visitedArticles Math_random (random_calls w) limit) in Hkeys.
  destruct (candidatePool _ _ _ _ _) as [cands|]; cbn zeta.
  - eexists _, _, _. split; [reflexivity|]. split; [reflexivity|].
    rewrite length_app, length_fmap, length_take. lia.
  - eexists _, _, _. split; [reflexivity|]. split; [reflexivity|]. lia.
Qed.

Lemma merged_all_empty (vset : gset string) (linkResults : list LinkPayload)
    (st : gset string * list string) :
  (∀ p, p ∈ linkResults → p = Titles []) → merged vset linkResults st = Some (snd st).
Proof.
  revert st. induction linkResults as [|p rest IH]; intros st Hall; [done|].
  rewrite (Hall p) by apply list_elem_of_here. simpl. apply IH.
  intros p' Hp'. apply Hall. by apply list_elem_of_further.
Qed.

Lemma link_outcomes_all_empty (queryClient : Api) (Math_random : RandomSource)
    (calls : nat) (sources : list (option VisitedArticle)) :
  (∀ t l, fetchArticleBacklinks queryClient t = Fulfilled (Titles l) → l = []) →
  (∀ t l, fetchArticleLinks queryClient t = Fulfilled (Titles l) → l = []) →
  (∀ t, fetchArticleBacklinks queryClient t ≠ Fulfilled NotIterable) →
  (∀ t, fetchArticleLinks queryClient t ≠ Fulfilled NotIterable) →
  ∀ p, p ∈ link_outcomes queryClient Math_random calls sources → p = Titles [].
Proof.
  intros Hb Hl Hbn Hln. revert calls.
  induction sources as [|a rest IH]; intros calls p Hp.
  - by apply elem_of_nil in Hp.
  - simpl in Hp. apply elem_of_cons in Hp as [->|Hp]; [|by eapply IH].
    destruct a as [a|]; [|done]. unfold link_outcome, link_fetch.
    destruct (above_half _).
    + destruct (fetchArticleBacklinks queryClient (v_title a)) as [[l|]|] eqn:Hf;
        [by rewrite (Hb _ _ Hf)|by apply Hbn in Hf|done].
    + destruct (fetchArticleLinks queryClient (v_title a)) as [[l|]|] eqn:Hf;
        [by rewrite (Hl _ _ Hf)|by apply Hln in Hf|done].
Qed.

(** X7: when every link query fails or resolves to an empty list, the call
    resolves to the empty list without a summary query; this is not a
    failure: [error] is [null]. *)
Theorem X7_no_links_no_error (visitedArticles : list VisitedArticle)
    (queryClient : Api) (Math_random : RandomSource) (limit : Z) (w : World) :
  (∀ t, fetchArticleBacklinks queryClient t = Rejected ∨
        fetchArticleBacklinks queryClient t = Fulfilled (Titles [])) →
  (∀ t, fetchArticleLinks queryClient t = Rejected ∨
        fetchArticleLinks queryClient t = Fulfilled (Titles [])) →
  ∃ w',
    getRecommendations visitedArticles queryClient Math_random limit w
      = (Normal [], w') ∧
    error w' = None ∧ loading w' = false ∧
    summary_queries w' = summary_queries w.
Proof.
  intros Hb Hl.
  destruct (decide (visitedArticles = [])) as [->|Hne].
  { exists (settled_quietly w). by rewrite getRecommendations_run. }
  rewrite getRecommendations_pool by done.
  unfold candidatePool. rewrite merged_all_empty.
  - cbn zeta. unfold shuffled_of, fisher_yates. simpl. rewrite take_nil. simpl.
    eexists. split; [reflexivity|]. repeat split.
    unfold summary_queries, linkQueries_of. simpl.
    by rewrite app_nil_r, omap_app, summary_queries_link_keys, app_nil_r.
  - apply link_outcomes_all_empty.
    + intros t l Hf. destruct (Hb t) as [Hr|Hr]; congruence.
    + intros t l Hf. destruct (Hl t) as [Hr|Hr]; congruence.
    + intros t Hf. destruct (Hb t) as [Hr|Hr]; congruence.
    + intros t Hf. destruct (Hl t) as [Hr|Hr]; congruence.
Qed.

(** X7 at the history [A, B] and fetchers without links. *)
Lemma X7_no_links_no_error_witness :
  ∃ w',
    getRecommendations visited_AB api_no_links eighths 4 idle = (Normal [], w') ∧
    error w' = None ∧ loading w' = false ∧
    summary_queries w' = summary_queries idle.
Proof.
  apply (X7_no_links_no_error visited_AB api_no_links eighths 4 idle).
  - intros t. left. reflexivity.
  - intros t. right. reflexivity.
Defined.

Lemma length_omap_total {A B} (f : A → option B) (l : list A) :
  (∀ a, is_Some (f a)) → length (omap f l) = length l.
Proof.
  intros Hf. induction l as [|a l IH]; csimpl; [done|].
  destruct (Hf a) as [b ->]. csimpl. by rewrite IH.
Qed.

Lemma candidatePool_nil (queryClient : Api) (Math_random : RandomSource)
    (calls : nat) (limit : Z) :
  candidatePool [] queryClient Math_random calls limit = Some [].
Proof.
  unfold candidatePool, linkResults_of, sourceArticles_of, sourceIndices.
  by destruct (Z.to_nat _).
Qed.

(** X8: when no summary query resolves without an article, the call returns
    exactly [min(candidateCount, max(0, limit))] items, where [candidateCount]
    is the number of candidates the merge step produced: failures of summary
    queries do not shorten the result. *)
Theorem X8_full_supply (visitedArticles : list VisitedArticle)
    (queryClient : Api) (Math_random : RandomSource) (limit : Z) (w : World)
    (cands : list string) :
  (∀ t, fetchArticleSummary queryClient t ≠ Fulfilled None) →
  fst (gatherCandidates visitedArticles queryClient Math_random limit (started w))
    = Normal cands →
  ∃ recs w',
    getRecommendations visitedArticles queryClient Math_random limit w
      = (Normal recs, w') ∧
    Z.of_nat (length recs) = Z.min (Z.of_nat (length cands)) (Z.max 0 limit).
Proof.
  intros Hsome Hgather.
  rewrite gatherCandidates_run in Hgather. cbn [fst random_calls started] in Hgather.
  destruct (decide (visitedArticles = [])) as [->|Hne].
  { rewrite candidatePool_nil in Hgather. injection Hgather as <-.
    exists [], (settled_quietly w). rewrite getRecommendations_run.
    split; [done|]. simpl. lia. }
  rewrite getRecommendations_pool by done.
  destruct (candidatePool _ _ _ _ _) as [c|]; [|done].
  injection Hgather as ->. cbn zeta. eexists _, _. split; [reflexivity|].
  rewrite length_omap_total.
  - rewrite length_take. unfold shuffled_of, fisher_yates.
    rewrite fy_from_length. lia.
  - intros t. unfold resolve. specialize (Hsome t).
    destruct (fetchArticleSummary queryClient t) as [[s|]|]; [by eexists|done|by eexists].
Qed.

(** X8 at one visited article, limit 3 and eight candidates: three items. *)
Lemma X8_full_supply_witness :
  ∃ recs w',
    getRecommendations visited_A api_eight eighths 3 idle = (Normal recs, w') ∧
    Z.of_nat (length recs) =
      Z.min (Z.of_nat (length ["X1"; "X2"; "X3"; "X4"; "X5"; "X6"; "X7"; "X8"]))
        (Z.max 0 3).
Proof.
  apply (X8_full_supply visited_A api_eight eighths 3 idle).
  - intros t. discriminate.
  - vm_compute. reflexivity.
Defined.

Lemma lookup_all_seq {A} (l : list A) : (l !!.) <$> seq 0 (length l) = Some <$> l.
Proof.
  apply list_eq. intros i. rewrite !list_lookup_fmap.
  destruct (decide (i < length l)%nat) as [Hlt|Hge].
  - rewrite lookup_seq_lt by done. simpl.
    destruct (lookup_lt_is_Some_2 l i Hlt) as [x Hx]. by rewrite Hx.
  - rewrite lookup_seq_ge by lia. by rewrite lookup_ge_None_2 by lia.
Qed.

(** X9: when [ceil(limit/2)] is at least the size of the history, the sampler
    selects every visited article exactly once: its result is a rearrangement
    of the whole history, obtained with one draw per article. *)
Theorem X9_sampler_exhausts_history (visitedArticles : list VisitedArticle)
    (Math_random : RandomSource) (limit : Z) (w : World) :
  Z.of_nat (length visitedArticles) <= ceil_half limit →
  ∃ sourceArticles,
    sampleSourceArticles visitedArticles Math_random
      (Z.min (Z.of_nat (length visitedArticles)) (ceil_half limit)) w
      = (Normal sourceArticles, advance (length visitedArticles) [] w) ∧
    sourceArticles ≡ₚ Some <$> visitedArticles.
Proof.
  intros Hle.
  pose proof (sampleSourceArticles_run visitedArticles Math_random limit w) as Hrun.
  unfold maxSourceArticles_of in Hrun.
  set (idxs := sourceIndices visitedArticles Math_random (random_calls w) limit) in *.
  assert (Hlen : length idxs = length visitedArticles).
  { pose proof (sourceIndices_length visitedArticles Math_random (random_calls w) limit).
    fold idxs in H. lia. }
  assert (Hperm : idxs ≡ₚ seq 0 (length visitedArticles)).
  { apply submseteq_length_Permutation; [|rewrite length_seq; lia].
    apply NoDup_submseteq; [apply picks_NoDup|].
    intros i Hi. by apply picks_subset in Hi. }
  eexists. split; [by rewrite Hrun, Hlen|].
  by rewrite Hperm, lookup_all_seq.
Qed.

(** X9 at the history [A, B] and limit 4. *)
Lemma X9_sampler_exhausts_history_witness :
  ∃ sourceArticles,
    sampleSourceArticles visited_AB eighths
      (Z.min (Z.of_nat (length visited_AB)) (ceil_half 4)) idle
      = (Normal sourceArticles, advance (length visited_AB) [] idle) ∧
    sourceArticles ≡ₚ Some <$> visited_AB.
Proof.
  apply (X9_sampler_exhausts_history visited_AB eighths 4 idle).
  vm_compute. discriminate.
Defined.

(** ** Where recommended titles come from *)

Lemma foldl_merge_title_elem (vset : gset string) (l : list string)
    (st : gset string * list string) (t : string) :
  t ∈ snd (foldl (merge_title vset) st l) → t ∈ snd st ∨ t ∈ l.
Proof.
  revert st. induction l as [|x l IH]; intros st Ht; [by left|].
  simpl in Ht. apply IH in Ht as [Ht|Ht].
  - destruct st as [seen acc]. unfold merge_title in Ht.
    case_decide; [|by left]. simpl in Ht.
    apply elem_of_app in Ht as [Ht|Ht]; [by left|].
    apply list_elem_of_singleton in Ht as ->. right. apply list_elem_of_here.
  - right. by apply list_elem_of_further.
Qed.

Lemma merged_elem (vset : gset string) (linkResults : list LinkPayload)
    (st : gset string * list string) (cands : list string) (t : string) :
  merged vset linkResults st = Some cands → t ∈ cands →
  t ∈ snd st ∨ ∃ l, Titles l ∈ linkResults ∧ t ∈ l.
Proof.
  revert st. induction linkResults as [|p rest IH]; intros st Hm Ht.
  - injection Hm as <-. by left.
  - destruct p as [l|]; [|done]. simpl in Hm.
    destruct (IH _ Hm Ht) as [Hin|(l' & Hl' & Hin)].
    + apply foldl_merge_title_elem in Hin as [Hin|Hin]; [by left|].
      right. exists l. split; [apply list_elem_of_here|done].
    + right. exists l'. split; [by apply list_elem_of_further|done].
Qed.

Lemma link_outcomes_elem (queryClient : Api) (Math_random : RandomSource)
    (calls : nat) (sources : list (option VisitedArticle)) (l : list string)
    (t : string) :
  Titles l ∈ link_outcomes queryClient Math_random calls sources → t ∈ l →
  ∃ a, Some a ∈ sources ∧
       (fetchArticleBacklinks queryClient (v_title a) = Fulfilled (Titles l) ∨
        fetchArticleLinks queryClient (v_title a) = Fulfilled (Titles l)).
Proof.
  revert calls. induction sources as [|a rest IH]; intros calls Hin Ht.
  - by apply elem_of_nil in Hin.
  - simpl in Hin. apply elem_of_cons in Hin as [Heq|Hin].
    + destruct a as [a|]; simpl in Heq.
      * exists a. split; [apply list_elem_of_here|].
        unfold link_fetch in Heq. destruct (above_half _).
        -- left. destruct (fetchArticleBacklinks _ _) as [p|]; [congruence|].
           injection Heq as ->. by apply elem_of_nil in Ht.
        -- right. destruct (fetchArticleLinks _ _) as [p|]; [congruence|].
           injection Heq as ->. by apply elem_of_nil in Ht.
      * injection Heq as ->. by apply elem_of_nil in Ht.
    + destruct (IH _ Hin Ht) as (a' & Ha' & Hf).
      exists a'. split; [by apply list_elem_of_further|done].
Qed.

(** X10: when every summary response carries the title that was asked for,
    every recommended title is a backlink or a forward link of some visited
    article, as fetched during the call. *)
Theorem X10_recommended_titles_are_links (visitedArticles : list VisitedArticle)
    (queryClient : Api) (Math_random : RandomSource) (limit : Z) (w : World) :
  (∀ u s, fetchArticleSummary queryClient u = Fulfilled (Some s) → s_title s = u) →
  ∃ recs w',
    getRecommendations visitedArticles queryClient Math_random limit w
      = (Normal recs, w') ∧
    ∀ r, r ∈ recs →
      ∃ a l, a ∈ visitedArticles ∧ title r ∈ l ∧
        (fetchArticleBacklinks queryClient (v_title a) = Fulfilled (Titles l) ∨
         fetchArticleLinks queryClient (v_title a) = Fulfilled (Titles l)).
Proof.
  intros Hecho.
  destruct (decide (visitedArticles = [])) as [->|Hne].
  { exists [], (settled_quietly w). rewrite getRecommendations_run.
    split; [done|]. intros r Hr. by apply elem_of_nil in Hr. }
  rewrite getRecommendations_pool by done.
  destruct (candidatePool _ _ _ _ _) as [cands|] eqn:Hpool.
  - cbn zeta. eexists _, _. split; [reflexivity|]. intros r Hr.
    apply list_elem_of_omap in Hr as (t & Ht & Hres).
    rewrite (resolve_title _ _ _ Hecho Hres).
    apply elem_of_take in Ht as (i & Ht & _). apply list_elem_of_lookup_2 in Ht.
    unfold shuffled_of, fisher_yates in Ht. rewrite fy_from_perm in Ht.
    unfold candidatePool in Hpool.
    destruct (merged_elem _ _ _ _ t Hpool Ht) as [Hnil|(l & Hl & Htl)].
    { by apply elem_of_nil in Hnil. }
    destruct (link_outcomes_elem _ _ _ _ _ _ Hl Htl) as (a & Ha & Hf).
    exists a, l. split; [|done].
    unfold sourceArticles_of in Ha.
    apply list_elem_of_fmap in Ha as (i' & Hi' & _).
    symmetry in Hi'. by eapply list_elem_of_lookup_2.
  - eexists _, _. split; [reflexivity|]. intros r Hr. by apply elem_of_nil in Hr.
Qed.

(** X10 at the history [A, B] and fetchers whose summaries carry the
    requested title. *)
Lemma X10_recommended_titles_are_links_witness :
  ∃ recs w',
    getRecommendations visited_AB api_eight eighths 3 idle = (Normal recs, w') ∧
    ∀ r, r ∈ recs →
      ∃ a l, a ∈ visited_AB ∧ title r ∈ l ∧
        (fetchArticleBacklinks api_eight (v_title a) = Fulfilled (Titles l) ∨
         fetchArticleLinks api_eight (v_title a) = Fulfilled (Titles l)).
Proof.
  apply (X10_recommended_titles_are_links visited_AB api_eight eighths 3 idle).
  intros u s [= <-]. reflexivity.
Defined.

(** ** [fetchConcurrently] *)

Lemma fetchConcurrently_from_total {T R} (requestFn : T → M R) (items : list T)
    (acc : list R) (w : World) :
  ∃ res w',
    fetchConcurrently_from requestFn items acc w = (Normal res, w') ∧
    (length acc ≤ length res ≤ length acc + length items)%nat.
Proof.
  revert acc w. induction items as [|item rest IH]; intros acc w.
  - exists acc, w. split; [done|]. simpl. lia.
  - cbn [fetchConcurrently_from]. rewrite bind_run. unfold try_catch at 1.
    rewrite bind_run.
    destruct (requestFn item w) as [[r|] w1].
    + destruct (IH (acc ++ [r]) w1) as (res & w' & Hrun & Hlen).
      exists res, w'. split; [exact Hrun|].
      rewrite length_app in Hlen. simpl in *. lia.
    + destruct (IH acc w1) as (res & w' & Hrun & Hlen).
      exists res, w'. split; [exact Hrun|]. simpl. lia.
Qed.

(** X11: [fetchConcurrently] never rejects, whatever the request function
    does, and returns at most one result per item. *)
Theorem X11_fetchConcurrently_never_rejects {T R} (items : list T)
    (requestFn : T → M R) (w : World) :
  ∃ res w',
    fetchConcurrently items requestFn w = (Normal res, w') ∧
    (length res ≤ length items)%nat.
Proof.
  destruct (fetchConcurrently_from_total requestFn items [] w)
    as (res & w' & Hrun & Hlen).
  exists res, w'. split; [exact Hrun|]. simpl in Hlen. lia.
Qed.

Lemma fetchConcurrently_from_keyed {T R} (key : T → QueryKey)
    (outcome : T → Settled R) (items : list T) (acc : list R) (w : World) :
  fetchConcurrently_from (keyed_request key outcome) items acc w =
  (Normal (acc ++ omap (λ item, fulfilled_value (outcome item)) items),
   advance 0 (key <$> items) w).
Proof.
  revert acc w. induction items as [|item rest IH]; intros acc w.
  - simpl. by rewrite app_nil_r, advance_0.
  - cbn [fetchConcurrently_from]. rewrite bind_run. unfold try_catch at 1.
    rewrite bind_run. unfold keyed_request at 1, fetchQuery.
    destruct (outcome item) as [r|] eqn:Hout; cbn iota beta.
    + unfold mret at 1, M_ret. rewrite IH. csimpl. rewrite Hout. csimpl.
      rewrite <- app_assoc. unfold advance. simpl.
      by rewrite <- app_assoc.
    + unfold mret at 1, M_ret. rewrite IH. csimpl. rewrite Hout. csimpl.
      unfold advance. simpl. by rewrite <- app_assoc.
Qed.

(** X12: with a request function that issues one query per item,
    [fetchConcurrently] issues the queries of all the items, in the order of
    the items and also after a failure, and returns the values of the
    fulfilled ones in that order. *)
Theorem X12_fetchConcurrently_keeps_fulfilled {T R} (key : T → QueryKey)
    (outcome : T → Settled R) (items : list T) (w : World) :
  fetchConcurrently items (keyed_request key outcome) w =
  (Normal (omap (λ item, fulfilled_value (outcome item)) items),
   advance 0 (key <$> items) w).
Proof. unfold fetchConcurrently. by rewrite fetchConcurrently_from_keyed. Qed.

(** ** [fetchRandomArticle] *)

Section RandomArticleFacts.
Variable get : Z → RandomArticle.Response.
Variable maxRetries : Z.

Local Abbreviation attempts := (RandomArticle.attempts get maxRetries).
Local Abbreviation get_calls := RandomArticle.get_calls.
Local Abbreviation backoff := RandomArticle.backoff.
Local Abbreviation continues := (RandomArticle.continues get maxRetries).

Lemma get_calls_app (t1 t2 : list RandomArticle.Event) :
  get_calls (t1 ++ t2) = (get_calls t1 + get_calls t2)%nat.
Proof.
  induction t1 as [|ev t1 IH]; [done|]. simpl. destruct ev; simpl; lia.
Qed.

Lemma backoff_app (t1 t2 : list RandomArticle.Event) :
  backoff (t1 ++ t2) = backoff t1 + backoff t2.
Proof.
  induction t1 as [|ev t1 IH]; [done|]. simpl. destruct ev; simpl; lia.
Qed.

Lemma attempts_budget (remaining : nat) (attempt : Z)
    (trace : list RandomArticle.Event) :
  1 <= attempt →
  Z.of_nat remaining = Z.max 0 (maxRetries - attempt + 1) →
  let tr := snd (attempts remaining attempt trace) in
  (get_calls tr ≤ get_calls trace + remaining)%nat ∧
  backoff trace <= backoff tr ∧
  backoff tr <= backoff trace
               + 250 * Z.max 0 (maxRetries * (maxRetries - 1) - attempt * (attempt - 1)).
Proof.
  revert attempt trace. induction remaining as [|k IH]; intros a trace Ha Hrem.
  - simpl. repeat split; lia.
  - assert (Hle : a <= maxRetries) by lia.
    cbn [RandomArticle.attempts].
    destruct (get a) as [data|e].
    + destruct (RandomArticle.incomplete data).
      * specialize (IH (a + 1) (trace ++ [RandomArticle.Get])).
        cbn zeta in IH. rewrite get_calls_app, backoff_app in IH. simpl in IH.
        destruct IH as (Hr & Hlo & Hhi); [lia|lia|].
        cbn zeta. repeat split; [lia|lia|nia].
      * cbn zeta. cbn [snd]. rewrite get_calls_app, backoff_app. simpl.
        repeat split; [lia|lia|nia].
    + destruct (RandomArticle.retryable e && bool_decide (a < maxRetries)) eqn:Hretry.
      * apply andb_true_iff in Hretry as [_ Hlt]. apply bool_decide_eq_true in Hlt.
        specialize (IH (a + 1)
                      (trace ++ [RandomArticle.Get; RandomArticle.Sleep (500 * a)])).
        cbn zeta in IH. rewrite get_calls_app, backoff_app in IH. simpl in IH.
        destruct IH as (Hr & Hlo & Hhi); [lia|lia|].
        cbn zeta. repeat split; [lia|lia|nia].
      * cbn zeta. cbn [snd]. rewrite get_calls_app, backoff_app. simpl.
        repeat split; [lia|lia|nia].
Qed.

(** X13: [fetchRandomArticle] calls [axiosInstance.get] at most
    [max(0, maxRetries)] times, and its retry loop waits at most
    [250 * m * (m - 1)] milliseconds in total between the calls, where
    [m = max(0, maxRetries)]: three calls and 1.5 seconds for the default of
    3.  (The waits and repeated requests of the client inside a call are not
    counted.) *)
Theorem X13_random_article_budget :
  let tr := snd (RandomArticle.fetchRandomArticle get maxRetries) in
  Z.of_nat (RandomArticle.get_calls tr) <= Z.max 0 maxRetries ∧
  0 <= RandomArticle.backoff tr ∧
  RandomArticle.backoff tr <= 250 * Z.max 0 maxRetries * (Z.max 0 maxRetries - 1).
Proof.
  unfold RandomArticle.fetchRandomArticle.
  destruct (decide (maxRetries <= 0)) as [Hle|Hgt].
  { replace (Z.to_nat maxRetries) with 0%nat by lia. simpl. lia. }
  destruct (attempts_budget (Z.to_nat maxRetries) 1 []) as (Hr & Hlo & Hhi);
    [lia|lia|].
  cbn zeta in *. cbn [RandomArticle.get_calls RandomArticle.backoff foldr] in Hr, Hlo, Hhi.
  repeat split; [lia|lia|nia].
Qed.

Lemma attempts_exhausted (remaining : nat) (attempt : Z)
    (trace : list RandomArticle.Event) :
  (∀ j, attempt <= j < attempt + Z.of_nat remaining → continues j = true) →
  ∃ tr,
    attempts remaining attempt trace =
    ({| RandomArticle.article := None;
        RandomArticle.error := Some "All retry attempts failed" |}, tr) ∧
    get_calls tr = (get_calls trace + remaining)%nat.
Proof.
  revert attempt trace. induction remaining as [|k IH]; intros a trace Hall.
  - exists trace. split; [done|]. lia.
  - cbn [RandomArticle.attempts].
    pose proof (Hall a) as Ha. unfold RandomArticle.continues in Ha.
    destruct (get a) as [data|e]; rewrite Ha by lia.
    + destruct (IH (a + 1) (trace ++ [RandomArticle.Get])) as (tr & Hrun & Hreq).
      { intros j Hj. apply Hall. lia. }
      exists tr. split; [exact Hrun|]. rewrite Hreq, get_calls_app. simpl. lia.
    + destruct (IH (a + 1)
                  (trace ++ [RandomArticle.Get; RandomArticle.Sleep (500 * a)]))
        as (tr & Hrun & Hreq).
      { intros j Hj. apply Hall. lia. }
      exists tr. split; [exact Hrun|]. rewrite Hreq, get_calls_app. simpl. lia.
Qed.

(** X14: the return after the loop is reachable.  When every attempt leads
    to another one (an incomplete article, or a 404 or network error before
    the last attempt), the function makes all its [max(0, maxRetries)] calls
    of [axiosInstance.get] and returns the error 'All retry attempts
    failed'. *)
Theorem X14_random_article_all_attempts_fail :
  (∀ j, 1 <= j <= maxRetries → RandomArticle.continues get maxRetries j = true) →
  ∃ tr,
    RandomArticle.fetchRandomArticle get maxRetries =
    ({| RandomArticle.article := None;
        RandomArticle.error := Some "All retry attempts failed" |}, tr) ∧
    Z.of_nat (RandomArticle.get_calls tr) = Z.max 0 maxRetries.
Proof.
  intros Hall. unfold RandomArticle.fetchRandomArticle.
  destruct (attempts_exhausted (Z.to_nat maxRetries) 1 []) as (tr & Hrun & Hreq).
  { intros j Hj. apply Hall. lia. }
  exists tr. split; [exact Hrun|]. rewrite Hreq. simpl. lia.
Qed.

Lemma attempts_decided (remaining : nat) (attempt k : Z)
    (trace : list RandomArticle.Event) :
  attempt <= k → k - attempt < Z.of_nat remaining →
  (∀ j, attempt <= j < k → continues j = true) →
  continues k = false →
  ∃ tr,
    attempts remaining attempt trace =
    (match get k with
     | RandomArticle.Responded data =>
         {| RandomArticle.article := Some data; RandomArticle.error := None |}
     | RandomArticle.Failed e =>
         {| RandomArticle.article := None;
            RandomArticle.error := Some (RandomArticle.error_text e) |}
     end, tr) ∧
    Z.of_nat (get_calls tr) = Z.of_nat (get_calls trace) + (k - attempt + 1) ∧
    last tr = Some RandomArticle.Get.
Proof.
  revert attempt trace. induction remaining as [|n IH]; intros a trace Hak Hrem Hcont Hstop.
  - lia.
  - cbn [RandomArticle.attempts]. destruct (decide (a = k)) as [->|Hne].
    + unfold RandomArticle.continues in Hstop.
      destruct (get k) as [data|e]; rewrite Hstop.
      * eexists. split; [reflexivity|]. rewrite get_calls_app, last_snoc. simpl.
        split; [lia|done].
      * eexists. split; [reflexivity|]. rewrite get_calls_app, last_snoc. simpl.
        split; [lia|done].
    + pose proof (Hcont a) as Ha. unfold RandomArticle.continues in Ha.
      destruct (get a) as [data|e]; rewrite Ha by lia.
      * destruct (IH (a + 1) (trace ++ [RandomArticle.Get])) as (tr & Hrun & Hreq & Hlast);
          [lia|lia|intros j Hj; apply Hcont; lia|done|].
        exists tr. split; [exact Hrun|]. rewrite get_calls_app in Hreq. simpl in Hreq.
        split; [lia|done].
      * destruct (IH (a + 1)
                    (trace ++ [RandomArticle.Get; RandomArticle.Sleep (500 * a)]))
          as (tr & Hrun & Hreq & Hlast);
          [lia|lia|intros j Hj; apply Hcont; lia|done|].
        exists tr. split; [exact Hrun|]. rewrite get_calls_app in Hreq. simpl in Hreq.
        split; [lia|done].
Qed.

(** X15: the first attempt that does not lead to another one decides the
    result.  If attempts [1 .. k-1] all continue and attempt [k <= maxRetries]
    does not, the function calls [axiosInstance.get] exactly [k] times, the
    last thing it does being the call of attempt [k] (no wait of its own
    follows), and returns that attempt's article, or its error text when it
    failed. *)
Theorem X15_random_article_first_decisive (k : Z) :
  1 <= k <= maxRetries →
  (∀ j, 1 <= j < k → RandomArticle.continues get maxRetries j = true) →
  RandomArticle.continues get maxRetries k = false →
  ∃ tr,
    RandomArticle.fetchRandomArticle get maxRetries =
    (match get k with
     | RandomArticle.Responded data =>
         {| RandomArticle.article := Some data; RandomArticle.error := None |}
     | RandomArticle.Failed e =>
         {| RandomArticle.article := None;
            RandomArticle.error := Some (RandomArticle.error_text e) |}
     end, tr) ∧
    Z.of_nat (RandomArticle.get_calls tr) = k ∧
    last tr = Some RandomArticle.Get.
Proof.
  intros Hk Hcont Hstop. unfold RandomArticle.fetchRandomArticle.
  destruct (attempts_decided (Z.to_nat maxRetries) 1 k []) as (tr & Hrun & Hreq & Hlast);
    [lia|lia|done|done|].
  exists tr. split; [exact Hrun|]. simpl in Hreq. split; [lia|done].
Qed.

Lemma attempts_article (remaining : nat) (attempt : Z)
    (trace : list RandomArticle.Event) (data : RandomArticle.ArticleData) :
  RandomArticle.article (fst (attempts remaining attempt trace)) = Some data →
  RandomArticle.incomplete data = false ∧
  RandomArticle.error (fst (attempts remaining attempt trace)) = None.
Proof.
  revert attempt trace. induction remaining as [|n IH]; intros a trace; [done|].
  cbn [RandomArticle.attempts]. destruct (get a) as [d|e].
  - destruct (RandomArticle.incomplete d) eqn:Hd; [apply IH|].
    simpl. by intros [= <-].
  - destruct (RandomArticle.retryable e && bool_decide (a < maxRetries)); [apply IH|done].
Qed.

(** X16: an article that [fetchRandomArticle] returns always has a non-empty
    title and a non-empty extract, and comes without an error text. *)
Theorem X16_random_article_complete (data : RandomArticle.ArticleData) :
  RandomArticle.article (fst (RandomArticle.fetchRandomArticle get maxRetries))
    = Some data →
  (∃ t x, RandomArticle.title data = Some t ∧ t ≠ "" ∧
          RandomArticle.extract data = Some x ∧ x ≠ "") ∧
  RandomArticle.error (fst (RandomArticle.fetchRandomArticle get maxRetries)) = None.
Proof.
  intros Hart. apply attempts_article in Hart as [Hinc Herr]. split; [|exact Herr].
  unfold RandomArticle.incomplete in Hinc. apply orb_false_iff in Hinc as [Ht Hx].
  destruct data as [[t|] [x|]]; simpl in *; try done.
  exists t, x. apply bool_decide_eq_false in Ht, Hx. done.
Qed.

End RandomArticleFacts.

(** X14 at a server whose pages always lack an extract, with three attempts. *)
Lemma X14_random_article_all_attempts_fail_witness :
  ∃ tr,
    RandomArticle.fetchRandomArticle RandomArticle.always_incomplete 3 =
    ({| RandomArticle.article := None;
        RandomArticle.error := Some "All retry attempts failed" |}, tr) ∧
    Z.of_nat (RandomArticle.get_calls tr) = Z.max 0 3.
Proof.
  apply (X14_random_article_all_attempts_fail RandomArticle.always_incomplete 3).
  intros j _. reflexivity.
Defined.

(** X15 at a server that is unreachable twice and answers the third time. *)
Lemma X15_random_article_first_decisive_witness :
  ∃ tr,
    RandomArticle.fetchRandomArticle RandomArticle.third_time_lucky 3 =
    ({| RandomArticle.article :=
          Some {| RandomArticle.title := Some "T"; RandomArticle.extract := Some "E" |};
        RandomArticle.error := None |}, tr) ∧
    Z.of_nat (RandomArticle.get_calls tr) = 3 ∧
    last tr = Some RandomArticle.Get.
Proof.
  apply (X15_random_article_first_decisive RandomArticle.third_time_lucky 3 3).
  - lia.
  - intros j Hj. assert (j = 1 ∨ j = 2) as [-> | ->] by lia; reflexivity.
  - reflexivity.
Defined.

(** X16 at the same server. *)
Lemma X16_random_article_complete_witness :
  (∃ t x, Some "T" = Some t ∧ t ≠ "" ∧ Some "E" = Some x ∧ x ≠ "") ∧
  RandomArticle.error
    (fst (RandomArticle.fetchRandomArticle RandomArticle.third_time_lucky 3)) = None.
Proof.
  apply (X16_random_article_complete RandomArticle.third_time_lucky 3
           {| RandomArticle.title := Some "T"; RandomArticle.extract := Some "E" |}).
  reflexivity.
Defined.

(** ** Searching strings *)

Section JsStringFacts.
Import JsString.
Implicit Types (pat s t r : list Ascii.ascii) (c d : Ascii.ascii).

Lemma startsWith_app pat r : startsWith pat (pat ++ r) = true.
Proof.
  induction pat as [|p pat IH]; [done|]. simpl. by rewrite Ascii.eqb_refl, IH.
Qed.

Lemma startsWith_char c s : startsWith [c] s = true ↔ ∃ r, s = c :: r.
Proof.
  destruct s as [|c' s]; simpl.
  - split; [done|]. by intros [r ?].
  - rewrite andb_true_r, Ascii.eqb_eq. split.
    + intros ->. by eexists.
    + by intros [r [= ->]].
Qed.

Lemma indexOf_char_None c s : indexOf [c] s = None ↔ c ∉ s.
Proof.
  induction s as [|c' s IH].
  - simpl. split; [|done]. intros _ H. by apply elem_of_nil in H.
  - cbn [indexOf]. destruct (startsWith [c] (c' :: s)) eqn:Hst.
    + apply startsWith_char in Hst as [r [= -> ->]].
      split; [done|]. intros Hnot. exfalso. apply Hnot, list_elem_of_here.
    + assert (Hne : c ≠ c').
      { intros ->. assert (startsWith [c'] (c' :: s) = true) as Hst'
          by (apply startsWith_char; by eexists). congruence. }
      rewrite not_elem_of_cons. destruct (indexOf [c] s) as [i|]; simpl.
      * split; [done|]. intros [_ Hnot]. apply IH in Hnot. done.
      * split; [|done]. intros _. split; [done|]. by apply IH.
Qed.

Lemma indexOf_char_app c t r : c ∉ t → indexOf [c] (t ++ c :: r) = Some (length t).
Proof.
  induction t as [|c' t IH]; intros Hnot.
  - cbn [app indexOf]. assert (startsWith [c] (c :: r) = true) as ->
      by (apply startsWith_char; by eexists). done.
  - apply not_elem_of_cons in Hnot as [Hne Hnot].
    cbn [app indexOf]. destruct (startsWith [c] (c' :: t ++ c :: r)) eqn:Hst.
    + apply startsWith_char in Hst as [r' [= -> _]]. done.
    + rewrite IH by done. done.
Qed.

Lemma indexOf_char_Some c s i :
  indexOf [c] s = Some i → (c ∉ take i s) ∧ s !! i = Some c.
Proof.
  revert i. induction s as [|c' s IH]; intros i; [done|].
  cbn [indexOf]. destruct (startsWith [c] (c' :: s)) eqn:Hst.
  - intros [= <-]. apply startsWith_char in Hst as [r [= -> ->]].
    split; [|done]. simpl. intros H. by apply elem_of_nil in H.
  - destruct (indexOf [c] s) as [j|] eqn:Hj; [|done]. simpl. intros [= <-].
    destruct (IH j eq_refl) as [Hnot Hat]. split; [|done].
    simpl. apply not_elem_of_cons. split; [|done]. intros ->.
    assert (startsWith [c'] (c' :: s) = true) as Hst'
      by (apply startsWith_char; by eexists). congruence.
Qed.

Lemma includes_char c s : includes [c] s = true ↔ c ∈ s.
Proof.
  unfold includes. destruct (indexOf [c] s) as [i|] eqn:Hi.
  - split; [|done]. intros _. apply indexOf_char_Some in Hi as [_ Hat].
    by eapply list_elem_of_lookup_2.
  - apply indexOf_char_None in Hi. split; [done|]. intros Hin. by apply Hi in Hin.
Qed.

(** The part before the first separator holds no separator. *)
Lemma split_0_char_free c s : c ∉ split_0 [c] s.
Proof.
  unfold split_0. destruct (indexOf [c] s) as [i|] eqn:Hi.
  - by apply indexOf_char_Some in Hi as [? _].
  - by apply indexOf_char_None.
Qed.

Lemma split_0_prefix pat s : ∃ k, split_0 pat s = take k s.
Proof.
  unfold split_0. destruct (indexOf pat s) as [i|]; [by exists i|].
  exists (length s). by rewrite take_ge.
Qed.

Lemma split_0_char_id c s : c ∉ s → split_0 [c] s = s.
Proof. intros Hnot. unfold split_0. by apply indexOf_char_None in Hnot as ->. Qed.

Lemma split_0_char_app c t r : c ∉ t → split_0 [c] (t ++ c :: r) = t.
Proof.
  intros Hnot. unfold split_0. rewrite indexOf_char_app by done.
  by rewrite take_app_length.
Qed.

Lemma split_0_char_keeps c d t r :
  c ∉ t → c ≠ d → ∃ r', split_0 [c] (t ++ d :: r) = t ++ d :: r'.
Proof.
  intros Hnot Hne. unfold split_0.
  destruct (indexOf [c] (t ++ d :: r)) as [i|] eqn:Hi; [|by eexists].
  apply indexOf_char_Some in Hi as [Hfree Hat].
  assert (Hi : (length t < i)%nat).
  { destruct (decide (length t < i)%nat) as [|Hge]; [done|]. exfalso.
    destruct (decide (i = length t)) as [->|Hne'].
    - rewrite list_lookup_middle in Hat by done. congruence.
    - rewrite lookup_app_l in Hat by lia. apply Hnot.
      by eapply list_elem_of_lookup_2. }
  exists (take (i - S (length t)) r).
  rewrite take_app_ge by lia. f_equal.
  replace (i - length t)%nat with (S (i - S (length t))) by lia. done.
Qed.

End JsStringFacts.

(** ** Pressing a link *)

Section LinkPressFacts.
Import Stdlib.Strings.Ascii JsString LinkPress.

(** X17: [handleLinkPress] either opens the pressed href itself, unchanged, in
    the browser, or navigates to [/article/<title>] with a non-empty title
    that holds neither [#] nor [?]; it navigates only for an href that starts
    with [/wiki/] or contains [wikipedia.org/wiki/]. *)
Theorem X17_link_press_target (href : list ascii) :
  match handleLinkPress href with
  | push path =>
      ∃ t, path = lit "/article/" ++ t ∧ t ≠ [] ∧ ("#"%char ∉ t) ∧ ("?"%char ∉ t) ∧
           (startsWith (lit "/wiki/") href = true ∨
            includes (lit "wikipedia.org/wiki/") href = true)
  | openURL u => u = href
  end.
Proof.
  unfold handleLinkPress. cbn zeta.
  destruct (startsWith (lit "/wiki/") href || includes (lit "wikipedia.org/wiki/") href)
    eqn:Hwiki; [|done].
  set (raw := if startsWith (lit "/wiki/") href then _ else _).
  destruct (split_0 (lit "?") (split_0 (lit "#") raw)) as [|c t] eqn:Ht; [done|].
  exists (c :: t). split; [done|]. split; [done|]. rewrite <- Ht. split; [|split].
  - destruct (split_0_prefix (lit "?") (split_0 (lit "#") raw)) as [k ->].
    intros Hin. apply elem_of_take in Hin as (i & Hin & _).
    apply list_elem_of_lookup_2 in Hin. by apply (split_0_char_free "#"%char raw).
  - apply (split_0_char_free "?"%char).
  - by apply orb_true_iff.
Qed.

(** X18: a relative link [/wiki/<title>], possibly followed by an anchor or
    by query parameters, navigates to [/article/<title>]: what follows the
    first [#] or [?] is dropped. *)
Theorem X18_link_press_relative (t rest : list ascii) :
  t ≠ [] → "#"%char ∉ t → "?"%char ∉ t →
  (rest = [] ∨ ∃ r, rest = "#"%char :: r ∨ rest = "?"%char :: r) →
  handleLinkPress (lit "/wiki/" ++ t ++ rest) = push (lit "/article/" ++ t).
Proof.
  intros Hne Hhash Hquery Hrest. unfold handleLinkPress. cbn zeta.
  rewrite startsWith_app. cbn [orb].
  assert (Hraw : replace_first (lit "/wiki/") (lit "/wiki/" ++ t ++ rest) = t ++ rest).
  { unfold replace_first. cbn. done. }
  rewrite Hraw.
  assert (Hcut : split_0 (lit "?") (split_0 (lit "#") (t ++ rest)) = t).
  { destruct Hrest as [->|[r [->| ->]]].
    - rewrite app_nil_r. change (lit "#") with ["#"%char]. change (lit "?") with ["?"%char].
      rewrite (split_0_char_id "#"%char t) by done. by rewrite split_0_char_id.
    - change (lit "#") with ["#"%char]. change (lit "?") with ["?"%char].
      rewrite split_0_char_app by done. by rewrite split_0_char_id.
    - change (lit "#") with ["#"%char]. change (lit "?") with ["?"%char].
      destruct (split_0_char_keeps "#"%char "?"%char t r) as [r' ->]; [done|done|].
      by rewrite split_0_char_app. }
  rewrite Hcut. by destruct t.
Qed.

(** X18 at the link [/wiki/Foo#History]. *)
Lemma X18_link_press_relative_witness :
  handleLinkPress (lit "/wiki/" ++ lit "Foo" ++ lit "#History")
    = push (lit "/article/" ++ lit "Foo").
Proof.
  apply (X18_link_press_relative (lit "Foo") (lit "#History")).
  - discriminate.
  - apply (bool_decide_unpack _). vm_compute. exact I.
  - apply (bool_decide_unpack _). vm_compute. exact I.
  - right. exists (lit "History"). left. reflexivity.
Defined.

End LinkPressFacts.

(** ** The introduction of an article *)

Section ArticleParsingFacts.
Import Stdlib.Strings.Ascii JsString ArticleParsing.

Lemma h2_open_here_take (k : nat) (s : list ascii) :
  h2_open_here (take k s) = true → h2_open_here s = true.
Proof.
  destruct s as [|c0 [|c1 [|c2 rest]]]; destruct k as [|[|[|k]]]; try done.
  simpl. rewrite !andb_true_iff. intros [Htag Hgt]. split; [done|].
  change (lit ">") with [">"%char] in *. apply includes_char in Hgt.
  apply includes_char. apply elem_of_take in Hgt as (i & Hgt & _).
  by eapply list_elem_of_lookup_2.
Qed.

Lemma search_h2_Some (s : list ascii) (n : nat) :
  search_h2 s = Some n →
  h2_open_here (drop n s) = true ∧ search_h2 (take n s) = None.
Proof.
  revert n. induction s as [|c s IH]; intros n; [done|].
  cbn [search_h2]. destruct (h2_open_here (c :: s)) eqn:Hhere.
  - intros [= <-]. done.
  - destruct (search_h2 s) as [m|] eqn:Hm; [|done]. simpl. intros [= <-].
    destruct (IH m eq_refl) as [Hdrop Htake]. split; [done|].
    cbn [take search_h2]. rewrite Htake.
    destruct (h2_open_here (c :: take m s)) eqn:Hpre; [|done].
    change (c :: take m s) with (take (S m) (c :: s)) in Hpre.
    apply h2_open_here_take in Hpre. congruence.
Qed.

(** X19: [extractIntro] cuts the html in two parts that concatenate back to
    it.  The introduction holds no opening [h2] tag; the rest is empty or
    begins with the first opening [h2] tag. *)
Theorem X19_extractIntro_partition (html : list ascii) :
  introHtml (extractIntro html) ++ remaining (extractIntro html) = html ∧
  search_h2 (introHtml (extractIntro html)) = None ∧
  (remaining (extractIntro html) = [] ∨
   h2_open_here (remaining (extractIntro html)) = true).
Proof.
  unfold extractIntro. destruct (search_h2 html) as [idx|] eqn:Hsearch; simpl.
  - destruct (search_h2_Some html idx Hsearch) as [Hdrop Htake].
    split; [apply take_drop|]. split; [done|by right].
  - split; [apply app_nil_r|]. split; [done|by left].
Qed.

End ArticleParsingFacts.

(** ** The sections of an article *)

Section SectionFacts.
Import Stdlib.Strings.Ascii JsString ArticleParsing.
Implicit Types (s whole : list ascii) (ms : list (nat * list ascii)).

Lemma ascending_weaken (lo lo' hi : nat) ms :
  (lo' ≤ lo)%nat → ascending lo hi ms → ascending lo' hi ms.
Proof. destruct ms as [|[p h] rest]; [done|]. simpl. intros ? [? ?]. split; [lia|done]. Qed.

Lemma h2_matches_ascending s (skip pos : nat) :
  ascending (pos + skip) (pos + length s) (h2_matches s skip pos).
Proof.
  revert skip pos. induction s as [|c s IH]; intros skip pos; [done|].
  cbn [h2_matches]. destruct skip as [|k].
  - destruct (h2_match_here (c :: s)) as [[h len]|].
    + cbn [ascending length]. split; [lia|].
      replace (pos + S (length s))%nat with (S pos + length s)%nat by lia.
      eapply ascending_weaken; [|apply (IH (len - 1)%nat (S pos))]. lia.
    + replace (pos + length (c :: s))%nat with (S pos + length s)%nat
        by (cbn [length]; lia).
      eapply ascending_weaken; [|apply (IH 0%nat (S pos))]. lia.
  - replace (pos + S k)%nat with (S pos + k)%nat by lia.
    replace (pos + length (c :: s))%nat with (S pos + length s)%nat
      by (cbn [length]; lia).
    apply IH.
Qed.

Lemma sections_from_concat whole (i lo : nat) ms :
  ascending lo (length whole) ms →
  concat (html <$> sections_from whole i ms) =
  match ms with
  | [] => []
  | (start, _) :: _ => drop start whole
  end.
Proof.
  revert i lo. induction ms as [|[p h] rest IH]; intros i lo Hasc; [done|].
  destruct Hasc as [Hp Hrest]. cbn [sections_from]. csimpl.
  rewrite (IH (S i) (S p) Hrest). unfold slice.
  destruct rest as [|[q h'] rest].
  - rewrite app_nil_r. apply take_ge. rewrite length_drop. lia.
  - destruct Hrest as [Hq _].
    replace q with (p + (q - p))%nat at 2 by lia.
    rewrite <- drop_drop. apply take_drop.
Qed.

Lemma trimStart_nil s : trimStart s = [] → ∀ c, c ∈ s → is_space c = true.
Proof.
  induction s as [|d s IH]; intros Hnil c Hc; [by apply elem_of_nil in Hc|].
  simpl in Hnil. destruct (is_space d) eqn:Hd; [|done].
  apply elem_of_cons in Hc as [->|Hc]; [done|]. by apply IH.
Qed.

Lemma trimStart_head s : trimStart s = [] ∨ ∃ c r, trimStart s = c :: r ∧ is_space c = false.
Proof.
  induction s as [|d s IH]; [by left|]. simpl.
  destruct (is_space d) eqn:Hd; [exact IH|]. right. by eexists _, _.
Qed.

(** A string that [trim] empties holds white space only. *)
Lemma trim_nil s : trim s = [] → ∀ c, c ∈ s → is_space c = true.
Proof.
  unfold trim. intros Hnil.
  assert (Hrev : trimStart (reverse (trimStart s)) = []).
  { apply (f_equal reverse) in Hnil. by rewrite reverse_involutive in Hnil. }
  pose proof (trimStart_nil _ Hrev) as Hall.
  destruct (trimStart_head s) as [Hs|(c & r & Hs & Hc)].
  - by apply trimStart_nil.
  - rewrite Hs in Hall. rewrite (Hall c) in Hc; [done|].
    rewrite elem_of_reverse. apply list_elem_of_here.
Qed.

Lemma sections_cover whole :
  trim whole ≠ [] →
  concat (html <$> splitIntoSections whole) =
  match h2_matches whole 0 0 with
  | [] => whole
  | (start, _) :: _ => drop start whole
  end.
Proof.
  unfold splitIntoSections. intros Hblank. destruct (trim whole) as [|c t]; [done|].
  pose proof (h2_matches_ascending whole 0 0) as Hasc.
  destruct (h2_matches whole 0 0) as [|m ms] eqn:Hm.
  - csimpl. apply app_nil_r.
  - by rewrite (sections_from_concat whole 0 (0 + 0)).
Qed.

(** X20: blank html has no section.  Otherwise the html of the sections,
    concatenated, is the html from its first closed [h2] heading on, or the
    whole html, in a single section, when it has no such heading: nothing
    after the first heading is lost or repeated. *)
Theorem X20_sections_cover_suffix (whole : list ascii) :
  (trim whole = [] → splitIntoSections whole = []) ∧
  (trim whole ≠ [] →
   concat (html <$> splitIntoSections whole) =
   match h2_matches whole 0 0 with
   | [] => whole
   | (start, _) :: _ => drop start whole
   end).
Proof.
  split; [|apply sections_cover].
  unfold splitIntoSections. by intros ->.
Qed.

Lemma find_close_Some s (k : nat) :
  find_close s = Some k → h2_close_here (drop k s) = true.
Proof.
  revert k. induction s as [|c s IH]; intros k; [done|].
  cbn [find_close]. destruct (h2_close_here (c :: s)) eqn:Hhere.
  - by intros [= <-].
  - destruct (find_close s) as [m|]; [|done]. simpl. intros [= <-]. by apply IH.
Qed.

Lemma find_close_None s (m : nat) :
  find_close s = None → h2_close_here (drop m s) = false.
Proof.
  revert m. induction s as [|c s IH]; intros m; [by destruct m|].
  cbn [find_close]. destruct (h2_close_here (c :: s)) eqn:Hhere; [done|].
  destruct (find_close s) as [k|] eqn:Hk; [done|]. intros _.
  destruct m as [|m]; [done|]. by apply IH.
Qed.

Lemma h2_matches_none s (skip pos : nat) :
  (∀ p, h2_match_here (drop p s) = None) → h2_matches s skip pos = [].
Proof.
  revert skip pos. induction s as [|c s IH]; intros skip pos Hnone; [done|].
  cbn [h2_matches]. destruct skip as [|k].
  - pose proof (Hnone 0%nat) as H0. change (drop 0 (c :: s)) with (c :: s) in H0.
    rewrite H0.
    apply IH. intros p. apply (Hnone (S p)).
  - apply IH. intros p. apply (Hnone (S p)).
Qed.

(** When the html begins with an opening [h2] tag, a closed heading anywhere
    means a closed heading at the very start. *)
Lemma h2_matches_open_first s :
  h2_open_here s = true → h2_match_here s = None → h2_matches s 0 0 = [].
Proof.
  intros Hopen Hnone. apply h2_matches_none. intros p.
  destruct s as [|c0 [|c1 [|c2 rest]]]; try done.
  cbn [h2_open_here] in Hopen. apply andb_true_iff in Hopen as [Htag Hgt].
  cbn [h2_match_here] in Hnone. rewrite Htag in Hnone.
  unfold includes in Hgt.
  destruct (indexOf (lit ">") rest) as [j|] eqn:Hj; [|done].
  destruct (find_close (drop (S j) rest)) as [k|] eqn:Hclose; [done|].
  change (lit ">") with [">"%char] in Hj.
  apply indexOf_char_Some in Hj as [Hfree Hat].
  destruct (h2_match_here (drop p (c0 :: c1 :: c2 :: rest))) as [[h len]|] eqn:Hp;
    [exfalso|done].
  destruct (drop p (c0 :: c1 :: c2 :: rest)) as [|d0 [|d1 [|d2 rest']]] eqn:Hdrop;
    try done.
  cbn [h2_match_here] in Hp.
  destruct (Ascii.eqb d0 "<" && (Ascii.eqb d1 "h" || Ascii.eqb d1 "H") && Ascii.eqb d2 "2");
    [|done].
  destruct (indexOf (lit ">") rest') as [j'|] eqn:Hj'; [|done].
  destruct (find_close (drop (S j') rest')) as [k'|] eqn:Hclose'; [|done].
  change (lit ">") with [">"%char] in Hj'.
  apply indexOf_char_Some in Hj' as [_ Hat'].
  apply find_close_Some in Hclose'.
  assert (Hrest' : rest' = drop p rest).
  { assert (H3 : drop 3 (drop p (c0 :: c1 :: c2 :: rest)) = rest') by by rewrite Hdrop.
    rewrite drop_drop in H3. rewrite <- H3.
    replace (p + 3)%nat with (3 + p)%nat by lia. by rewrite <- drop_drop. }
  subst rest'. rewrite lookup_drop in Hat'.
  assert (Hle : (j ≤ p + j')%nat).
  { destruct (decide (j ≤ p + j')%nat) as [|Hlt]; [done|]. exfalso. apply Hfree.
    apply elem_of_take. exists (p + j')%nat. split; [done|lia]. }
  rewrite !drop_drop in Hclose'.
  pose proof (find_close_None _ (p + S j' + k' - S j) Hclose) as Hno.
  rewrite drop_drop in Hno.
  replace (S j + (p + S j' + k' - S j))%nat with (p + S j' + k')%nat in Hno by lia.
  replace (p + (S j' + k'))%nat with (p + S j' + k')%nat in Hclose' by lia.
  congruence.
Qed.

(** X21: [extractIntro] followed by [splitIntoSections] on its rest loses
    nothing: the introduction and the html of the sections, concatenated, are
    the html that was given. *)
Theorem X21_intro_and_sections_cover (whole : list ascii) :
  introHtml (extractIntro whole)
  ++ concat (html <$> splitIntoSections (remaining (extractIntro whole))) = whole.
Proof.
  unfold extractIntro. destruct (search_h2 whole) as [idx|] eqn:Hsearch; simpl.
  - destruct (search_h2_Some whole idx Hsearch) as [Hopen _].
    assert (Hblank : trim (drop idx whole) ≠ []).
    { intros Hnil. destruct (drop idx whole) as [|c0 [|c1 [|c2 rest]]] eqn:Hd; try done.
      cbn [h2_open_here] in Hopen. rewrite !andb_true_iff in Hopen.
      destruct Hopen as [[[Hc0 _] _] _]. apply Ascii.eqb_eq in Hc0 as ->.
      by pose proof (trim_nil _ Hnil "<"%char (list_elem_of_here _ _)). }
    rewrite (sections_cover _ Hblank).
    destruct (h2_match_here (drop idx whole)) as [[h len]|] eqn:Hhere.
    + destruct (drop idx whole) as [|c s] eqn:Hd; [done|].
      cbn [h2_matches]. rewrite Hhere. simpl. rewrite <- Hd. apply take_drop.
    + rewrite (h2_matches_open_first _ Hopen Hhere). apply take_drop.
  - by rewrite app_nil_r.
Qed.

Lemma sections_from_ids whole (i : nat) ms :
  id <$> sections_from whole i ms =
  (λ k, lit "section-" ++ digits k) <$> seq i (length ms).
Proof.
  revert i. induction ms as [|[p h] rest IH]; intros i; [done|].
  cbn [sections_from length seq]. csimpl. by rewrite IH.
Qed.

Lemma sections_from_heading whole (i : nat) ms (sec : HtmlSection) :
  sec ∈ sections_from whole i ms → heading sec ≠ [].
Proof.
  revert i. induction ms as [|[p h] rest IH]; intros i Hin.
  - by apply elem_of_nil in Hin.
  - cbn [sections_from] in Hin. apply elem_of_cons in Hin as [->|Hin]; [|by eapply IH].
    cbn [heading]. unfold heading_of. by destruct (trim (strip_tags false h)).
Qed.

(** X22: the sections are numbered in order, [section-0], [section-1], ...,
    and every section has a non-empty heading. *)
Theorem X22_sections_numbered (whole : list ascii) :
  id <$> splitIntoSections whole =
    (λ k, lit "section-" ++ digits k) <$> seq 0 (length (splitIntoSections whole)) ∧
  ∀ sec, sec ∈ splitIntoSections whole → heading sec ≠ [].
Proof.
  unfold splitIntoSections. destruct (trim whole) as [|c t].
  { split; [done|]. intros sec Hin. by apply elem_of_nil in Hin. }
  destruct (h2_matches whole 0 0) as [|m ms] eqn:Hm.
  - split; [done|]. intros sec Hin. by apply list_elem_of_singleton in Hin as ->.
  - split.
    + rewrite sections_from_ids. f_equal. f_equal.
      rewrite <- (length_fmap id), sections_from_ids. by rewrite length_fmap, length_seq.
    + intros sec Hin. by eapply sections_from_heading.
Qed.

End SectionFacts.

(** ** Summary queries are not repeated *)

(** X23: the titles whose summaries a call asks for are pairwise distinct,
    and none of them is the title of a visited article. *)
Theorem X23_summary_queries_distinct (visitedArticles : list VisitedArticle)
    (queryClient : Api) (Math_random : RandomSource) (limit : Z) :
  ∃ recs w',
    getRecommendations visitedArticles queryClient Math_random limit idle
      = (Normal recs, w') ∧
    NoDup (summary_queries w') ∧
    ∀ t, t ∈ summary_queries w' → t ∉ v_title <$> visitedArticles.
Proof.
  destruct (getRecommendations_idle visitedArticles queryClient Math_random limit)
    as (recs & w' & Hrun & _ & _ & Hsel).
  exists recs, w'. split; [done|].
  destruct (candidatePool visitedArticles queryClient Math_random 0 limit)
    as [cands|] eqn:Hpool.
  - destruct (decide (visitedArticles = [])) as [->|Hne].
    { rewrite getRecommendations_run in Hrun. injection Hrun as _ <-.
      split; [constructor|]. intros t Ht. by apply elem_of_nil in Ht. }
    rewrite (Hsel Hne). apply candidatePool_inv in Hpool as [Hnd Hvis].
    assert (Hperm : shuffled_of visitedArticles Math_random 0 limit cands ≡ₚ cands)
      by apply fy_from_perm.
    split.
    + eapply sublist_NoDup; [|apply sublist_take]. by rewrite Hperm.
    + intros t Ht. apply Hvis. rewrite <- Hperm.
      eapply elem_of_sublist; [exact Ht|apply sublist_take].
  - rewrite Hsel. split; [constructor|]. intros t Ht. by apply elem_of_nil in Ht.
Qed.

(** ** [fetchArticleCategories] *)

Section CategoriesFacts.
Import JsString Categories.
Implicit Types (pat s r : list Ascii.ascii).

Lemma indexOf_startsWith pat s : startsWith pat s = true → indexOf pat s = Some 0%nat.
Proof. destruct s; simpl; by intros ->. Qed.

Lemma replace_first_prefix pat r : replace_first pat (pat ++ r) = r.
Proof.
  unfold replace_first. rewrite indexOf_startsWith by apply startsWith_app.
  simpl. by rewrite drop_app_length.
Qed.

(** X24. [fetchArticleCategories] reads the categories of the first page of
    the response only, in their order, and returns each name without its
    "Category:" prefix. *)
Theorem X24_categories_prefix_removed (names : list text) (others : list Page) :
  fetchArticleCategories
    (Fulfilled
       {| query := Some {| pages := Some
            ({| categories :=
                  Some ((λ name, {| title := lit "Category:" ++ name |}) <$> names) |}
             :: others) |} |})
  = names.
Proof.
  cbn [fetchArticleCategories query pages categories].
  rewrite <- list_fmap_compose. rewrite <- (list_fmap_id names) at 2.
  apply list_fmap_ext. intros i name _. unfold categoryName. cbn [compose title].
  apply replace_first_prefix.
Qed.

End CategoriesFacts.

(** ** The title [fetchArticleHtml] asks for *)

Section ArticleHtmlFacts.
Import Stdlib.Strings.Ascii JsString ArticleParsing ArticleHtml.
Implicit Types (pat s r : list Ascii.ascii).

Lemma includes_nil pat : includes pat [] = startsWith pat [].
Proof. unfold includes. simpl. by destruct (startsWith pat []). Qed.

Lemma includes_cons pat c s :
  includes pat (c :: s) = startsWith pat (c :: s) || includes pat s.
Proof.
  unfold includes. cbn [indexOf].
  destruct (startsWith pat (c :: s)); [done|]. by destruct (indexOf pat s).
Qed.

Lemma startsWith_includes pat s : startsWith pat s = true → includes pat s = true.
Proof.
  destruct s; [by rewrite includes_nil|]. rewrite includes_cons. by intros ->.
Qed.

Lemma startsWith_mono pat s r : startsWith pat s = true → startsWith pat (s ++ r) = true.
Proof.
  revert s. induction pat as [|p pat IH]; intros [|c s]; simpl; try done.
  intros [-> H]%andb_true_iff. by rewrite (IH _ H).
Qed.

Lemma includes_app_r pat s r : includes pat (s ++ r) = false → includes pat r = false.
Proof.
  induction s as [|c s IH]; [done|]. simpl. rewrite includes_cons.
  intros [_ H]%orb_false_iff. by apply IH.
Qed.

Lemma includes_app_l pat s r : includes pat (s ++ r) = false → includes pat s = false.
Proof.
  induction s as [|c s IH]; simpl.
  - intros H. rewrite includes_nil. destruct (startsWith pat []) eqn:E; [|done].
    pose proof (startsWith_includes _ _ (startsWith_mono _ [] r E)) as H'.
    simpl in H'. congruence.
  - rewrite !includes_cons. intros [H1 H2]%orb_false_iff.
    rewrite (IH H2), orb_false_r.
    destruct (startsWith pat (c :: s)) eqn:E; [|done].
    pose proof (startsWith_mono _ (c :: s) r E) as H'.
    simpl in H'. congruence.
Qed.

(** White space *)

Lemma trimStart_id s : (∀ c, c ∈ s → is_space c = false) → trimStart s = s.
Proof.
  destruct s as [|c s]; [done|]. intros H. simpl.
  by rewrite (H c) by apply list_elem_of_here.
Qed.

Lemma trim_id s : (∀ c, c ∈ s → is_space c = false) → trim s = s.
Proof.
  intros H. unfold trim. rewrite (trimStart_id s H), trimStart_id.
  - apply reverse_involutive.
  - intros c Hc. apply H. by apply elem_of_reverse.
Qed.

Lemma collapse_spaces_no_space in_run s c :
  c ∈ collapse_spaces in_run s → is_space c = false.
Proof.
  revert in_run. induction s as [|d s IH]; intros in_run; simpl.
  - by intros ?%elem_of_nil.
  - destruct (is_space d) eqn:Hd.
    + destruct in_run; [apply IH|].
      intros [->|H]%elem_of_cons; [done|]. by apply IH in H.
    + intros [->|H]%elem_of_cons; [done|]. by apply IH in H.
Qed.

Lemma collapse_spaces_id in_run s :
  (∀ c, c ∈ s → is_space c = false) → collapse_spaces in_run s = s.
Proof.
  revert in_run. induction s as [|d s IH]; intros in_run H; [done|]. simpl.
  rewrite (H d) by apply list_elem_of_here. f_equal. apply IH.
  intros c Hc. apply H. by apply list_elem_of_further.
Qed.

(** The encoded spaces *)

Lemma replace_pct20_cons c s :
  (startsWith (lit "%20") (c :: s) = true ∧
   replace_pct20 (c :: s) = "_"%char :: replace_pct20 (drop 2 s)) ∨
  (startsWith (lit "%20") (c :: s) = false ∧
   replace_pct20 (c :: s) = c :: replace_pct20 s).
Proof.
  destruct s as [|d [|e s]].
  - right. split; [|done]. simpl. apply andb_false_r.
  - right. split; [|done]. simpl. by rewrite !andb_false_r.
  - cbn [replace_pct20]. destruct (startsWith (lit "%20") (c :: d :: e :: s)); [by left|by right].
Qed.

Lemma replace_pct20_elem s c :
  c ∈ replace_pct20 s → c = "_"%char ∨ c ∈ s.
Proof.
  remember (length s) as n eqn:Hn. revert s Hn.
  induction n as [n IH] using lt_wf_ind. intros [|d s] Hn.
  - by intros ?%elem_of_nil.
  - destruct (replace_pct20_cons d s) as [[_ ->]|[_ ->]];
      intros [->|H]%elem_of_cons.
    + by left.
    + assert (c = "_"%char ∨ c ∈ drop 2 s) as [?|Hin]; [|by left|].
      { apply (IH (length (drop 2 s))); [|done|done].
        subst n. rewrite length_drop. simpl. lia. }
      right. apply list_elem_of_further.
      by apply (elem_of_sublist (drop 2 s) s c), sublist_drop.
    + right. apply list_elem_of_here.
    + assert (c = "_"%char ∨ c ∈ s) as [?|Hin]; [|by left|].
      { apply (IH (length s)); [|done|done]. subst n. simpl. lia. }
      right. by apply list_elem_of_further.
Qed.

Lemma replace_pct20_starts1 x s :
  x ≠ "_"%char → startsWith [x] (replace_pct20 s) = true → startsWith [x] s = true.
Proof.
  intros Hx. destruct s as [|d s]; [done|].
  destruct (replace_pct20_cons d s) as [[_ ->]|[_ ->]]; simpl.
  - rewrite andb_true_r. by intros ?%Ascii.eqb_eq.
  - done.
Qed.

Lemma replace_pct20_starts2 x y s :
  x ≠ "_"%char → y ≠ "_"%char →
  startsWith [x; y] (replace_pct20 s) = true → startsWith [x; y] s = true.
Proof.
  intros Hx Hy. destruct s as [|d s]; [done|].
  destruct (replace_pct20_cons d s) as [[_ ->]|[_ ->]].
  - simpl. intros [?%Ascii.eqb_eq _]%andb_true_iff. done.
  - change (startsWith [x; y] (d :: replace_pct20 s))
      with (Ascii.eqb x d && startsWith [y] (replace_pct20 s)).
    change (startsWith [x; y] (d :: s)) with (Ascii.eqb x d && startsWith [y] s).
    intros [-> H]%andb_true_iff. by rewrite (replace_pct20_starts1 y s Hy H).
Qed.

Lemma replace_pct20_clean s : includes (lit "%20") (replace_pct20 s) = false.
Proof.
  remember (length s) as n eqn:Hn. revert s Hn.
  induction n as [n IH] using lt_wf_ind. intros [|d s] Hn; [done|].
  destruct (replace_pct20_cons d s) as [[_ ->]|[Hd ->]]; rewrite includes_cons.
  - rewrite (IH (length (drop 2 s))); [done| |done].
    subst n. rewrite length_drop. simpl. lia.
  - rewrite (IH (length s)); [|subst n; simpl; lia|done]. rewrite orb_false_r.
    destruct (startsWith (lit "%20") (d :: replace_pct20 s)) eqn:E; [|done].
    change (startsWith (lit "%20") (d :: replace_pct20 s))
      with (Ascii.eqb "%" d && startsWith ["2"; "0"]%char (replace_pct20 s)) in E.
    change (startsWith (lit "%20") (d :: s))
      with (Ascii.eqb "%" d && startsWith ["2"; "0"]%char s) in Hd.
    apply andb_true_iff in E as [E1 E2]. rewrite E1 in Hd.
    by rewrite (replace_pct20_starts2 "2" "0" s) in Hd.
Qed.

Lemma replace_pct20_id s : includes (lit "%20") s = false → replace_pct20 s = s.
Proof.
  induction s as [|d s IH]; [done|]. rewrite includes_cons.
  intros [H1 H2]%orb_false_iff.
  destruct (replace_pct20_cons d s) as [[Hd _]|[_ ->]]; [congruence|].
  by rewrite (IH H2).
Qed.

(** The underscores at both ends *)

Lemma stripStart_suffix s : ∃ p, s = p ++ stripStart s.
Proof.
  induction s as [|c s [p IH]]; [by exists []|]. simpl.
  destruct (Ascii.eqb c "_"); [|by exists []].
  exists (c :: p). simpl. by f_equal.
Qed.

Lemma stripStart_head s : head (stripStart s) ≠ Some "_"%char.
Proof.
  induction s as [|c s IH]; [done|]. simpl.
  destruct (Ascii.eqb c "_") eqn:E; [done|]. simpl.
  apply Ascii.eqb_neq in E. congruence.
Qed.

Lemma stripStart_id s : head s ≠ Some "_"%char → stripStart s = s.
Proof.
  destruct s as [|c s]; [done|]. simpl. intros H.
  destruct (Ascii.eqb c "_") eqn:E; [|done]. apply Ascii.eqb_eq in E. congruence.
Qed.

Lemma strip_underscores_infix s : ∃ p q, s = p ++ strip_underscores s ++ q.
Proof.
  unfold strip_underscores.
  destruct (stripStart_suffix s) as [p Hp].
  destruct (stripStart_suffix (reverse (stripStart s))) as [q Hq].
  exists p, (reverse q). rewrite <- reverse_app, <- Hq, reverse_involutive. exact Hp.
Qed.

Lemma strip_underscores_head s : head (strip_underscores s) ≠ Some "_"%char.
Proof.
  unfold strip_underscores.
  destruct (stripStart_suffix (reverse (stripStart s))) as [q Hq].
  apply (f_equal reverse) in Hq. rewrite reverse_involutive, reverse_app in Hq.
  pose proof (stripStart_head s) as H. rewrite Hq in H.
  by destruct (reverse (stripStart (reverse (stripStart s)))).
Qed.

Lemma strip_underscores_last s : last (strip_underscores s) ≠ Some "_"%char.
Proof.
  unfold strip_underscores. rewrite last_reverse. apply stripStart_head.
Qed.

Lemma strip_underscores_id s :
  head s ≠ Some "_"%char → last s ≠ Some "_"%char → strip_underscores s = s.
Proof.
  intros H1 H2. unfold strip_underscores. rewrite (stripStart_id s H1).
  rewrite stripStart_id by by rewrite head_reverse.
  apply reverse_involutive.
Qed.

Lemma cleanTitle_clean s : clean (cleanTitle s).
Proof.
  unfold cleanTitle.
  destruct (strip_underscores_infix
              (replace_pct20 (collapse_spaces false (trim s)))) as (p & q & Hpq).
  split; [|split; [|split]].
  - intros c Hc.
    assert (c ∈ replace_pct20 (collapse_spaces false (trim s))) as Hin.
    { rewrite Hpq. rewrite !elem_of_app. auto. }
    apply replace_pct20_elem in Hin as [->|Hin]; [done|].
    by apply collapse_spaces_no_space in Hin.
  - pose proof (replace_pct20_clean (collapse_spaces false (trim s))) as H.
    rewrite Hpq in H. apply includes_app_r in H. by apply includes_app_l in H.
  - apply strip_underscores_head.
  - apply strip_underscores_last.
Qed.

Lemma cleanTitle_id s : clean s → cleanTitle s = s.
Proof.
  intros (Hs & Hp & Hh & Hl). unfold cleanTitle.
  rewrite (trim_id s Hs), (collapse_spaces_id _ s Hs), (replace_pct20_id s Hp).
  by apply strip_underscores_id.
Qed.

(** X25. The title [fetchArticleHtml] puts into the request holds no white
    space and no "%20", and neither begins nor ends with an underscore. *)
Theorem X25_cleanTitle_shape (title : text) :
  (∀ c, c ∈ cleanTitle title → is_space c = false) ∧
  includes (lit "%20") (cleanTitle title) = false ∧
  head (cleanTitle title) ≠ Some "_"%char ∧
  last (cleanTitle title) ≠ Some "_"%char.
Proof. apply cleanTitle_clean. Qed.

(** X26. Cleaning a title twice is cleaning it once, so asking
    [fetchArticleHtml] for a title it has cleaned gives the answer for the
    title itself. *)
Theorem X26_cleanTitle_idempotent (get : text → Settled text) (title : text) :
  cleanTitle (cleanTitle title) = cleanTitle title ∧
  fetchArticleHtml get (cleanTitle title) = fetchArticleHtml get title.
Proof.
  assert (cleanTitle (cleanTitle title) = cleanTitle title) as H
    by apply cleanTitle_id, cleanTitle_clean.
  split; [done|]. unfold fetchArticleHtml. by rewrite H.
Qed.

End ArticleHtmlFacts.

(** ** Link fan-out: a failing source and its siblings *)

Lemma mergeCandidates_titles (vset : gset string) (lists : list (list string))
    (w : World) :
  mergeCandidates vset (Titles <$> lists) (∅, []) w =
  (Normal (reverse (remove_dups (reverse (filter (λ t, t ∉ vset) (concat lists))))), w).
Proof.
  rewrite mergeCandidates_run, merged_titles.
  destruct (foldl_merge_title vset (concat lists) ∅ []) as [_ ->].
  { intros t. split; intros H; [by apply not_elem_of_empty in H|by apply elem_of_nil in H]. }
  simpl. f_equal. f_equal. apply filter_all. intros x _ H. by apply elem_of_nil in H.
Qed.

Lemma link_titles_all (linkResults : list LinkPayload) :
  NotIterable ∉ linkResults → linkResults = Titles <$> (link_titles <$> linkResults).
Proof.
  induction linkResults as [|p rest IH]; intros Hno; [done|].
  apply not_elem_of_cons in Hno as [Hp Hrest]. csimpl. rewrite <- IH by done.
  by destruct p.
Qed.

(** C7: the link tasks of the sampled source articles all complete, one
    result per source, in the order of the sources.  The result of a source
    whose query throws is the empty list; the result of every other source is
    what its own query resolved to, whatever its siblings did; and the merge
    step runs on exactly these results.  When they are all arrays, the
    candidate pool is the first occurrences of the unvisited titles of their
    concatenation, a failed source adding nothing, and the request completes
    normally: it returns the items resolved from the first [limit] titles of
    the shuffled pool and leaves [error] at [null]. *)
Theorem C7_link_failure_yields_no_links (visitedArticles : list VisitedArticle)
    (queryClient : Api) (Math_random : RandomSource) (limit : Z) (w : World) :
  ∃ sources linkResults w1 w2,
    sampleSourceArticles visitedArticles Math_random
      (Z.min (Z.of_nat (length visitedArticles)) (ceil_half limit)) (started w)
      = (Normal sources, w1) ∧
    mapM (linkTask queryClient Math_random) sources w1 = (Normal linkResults, w2) ∧
    length linkResults = length sources ∧
    (∀ k a, sources !! k = Some (Some a) →
       linkResults !! k =
       Some (match link_fetch queryClient (Math_random (random_calls w1 + k)%nat) a with
             | Fulfilled p => p
             | Rejected => Titles []
             end)) ∧
    gatherCandidates visitedArticles queryClient Math_random limit (started w) =
      mergeCandidates (list_to_set (v_title <$> visitedArticles)) linkResults (∅, []) w2 ∧
    (NotIterable ∉ linkResults →
     ∃ pool shuffled w3 recs w',
       pool = reverse (remove_dups (reverse
                (filter (λ t, t ∉ (list_to_set (v_title <$> visitedArticles) : gset string))
                   (concat (link_titles <$> linkResults))))) ∧
       gatherCandidates visitedArticles queryClient Math_random limit (started w)
         = (Normal pool, w2) ∧
       shuffle Math_random pool w2 = (Normal shuffled, w3) ∧
       recs = omap (resolve queryClient) (take (Z.to_nat limit) shuffled) ∧
       getRecommendations visitedArticles queryClient Math_random limit w
         = (Normal recs, w') ∧
       error w' = None ∧ loading w' = false).
Proof.
  set (vset := list_to_set (v_title <$> visitedArticles) : gset string).
  set (idxs := sourceIndices visitedArticles Math_random (random_calls w) limit).
  set (sources := (visitedArticles !!.) <$> idxs).
  set (w1 := advance (length idxs) [] (started w)).
  set (linkResults := link_outcomes queryClient Math_random (random_calls w1) sources).
  set (w2 := advance (length sources)
               (link_keys Math_random (random_calls w1) sources) w1).
  assert (Hsample : sampleSourceArticles visitedArticles Math_random
            (Z.min (Z.of_nat (length visitedArticles)) (ceil_half limit)) (started w)
            = (Normal sources, w1)).
  { apply (sampleSourceArticles_run visitedArticles Math_random limit (started w)). }
  assert (Hlinks : mapM (linkTask queryClient Math_random) sources w1
                   = (Normal linkResults, w2)) by apply linkTasks_run.
  assert (Hgather : gatherCandidates visitedArticles queryClient Math_random limit
                      (started w) = mergeCandidates vset linkResults (∅, []) w2).
  { unfold gatherCandidates. erewrite bind_normal by exact Hsample.
    by erewrite bind_normal by exact Hlinks. }
  exists sources, linkResults, w1, w2.
  split; [exact Hsample|]. split; [exact Hlinks|].
  split; [apply link_outcomes_length|]. split.
  { intros k a Hk. unfold linkResults. by rewrite link_outcomes_lookup, Hk. }
  split; [exact Hgather|].
  intros Hno.
  set (pool := reverse (remove_dups (reverse
                 (filter (λ t, t ∉ vset) (concat (link_titles <$> linkResults)))))).
  assert (Hpool : gatherCandidates visitedArticles queryClient Math_random limit
                    (started w) = (Normal pool, w2)).
  { rewrite Hgather. rewrite (link_titles_all linkResults Hno) at 1.
    apply mergeCandidates_titles. }
  destruct (decide (visitedArticles = [])) as [Hnil|Hne].
  - exists pool. eexists _, _. exists [], (settled_quietly w).
    split; [done|]. split; [exact Hpool|].
    assert (pool = []) as Hp.
    { assert (idxs = []) as Hidxs.
      { unfold idxs, sourceIndices. rewrite Hnil. simpl.
        by destruct (Z.to_nat _). }
      unfold pool, linkResults, sources. by rewrite Hidxs. }
    split; [rewrite Hp; apply shuffle_run|].
    split; [unfold fisher_yates; simpl; by rewrite take_nil|].
    rewrite Hnil, getRecommendations_run. done.
  - rewrite getRecommendations_pool by done.
    assert (Hcands : candidatePool visitedArticles queryClient Math_random
                       (random_calls w) limit = Some pool).
    { rewrite gatherCandidates_run in Hpool. cbn [started random_calls] in Hpool.
      destruct (candidatePool _ _ _ _ _); [|discriminate]. by injection Hpool as ->. }
    rewrite Hcands. cbn zeta. exists pool. eexists _, _, _, _.
    split; [done|]. split; [exact Hpool|].
    split; [apply shuffle_run|]. split; [|done].
    do 2 f_equal. unfold shuffled_of. f_equal. f_equal.
    unfold w2, w1, sources, advance, started. cbn [random_calls].
    rewrite length_fmap. fold idxs. lia.
Qed.

(** C7 at the history [A, B] and limit 4, where the link query of [A] throws
    and that of [B] resolves to [X, A, Y]: the result of [A] is the empty
    list, and the request returns the candidates [X] and [Y] of [B]. *)
Lemma C7_link_failure_yields_no_links_witness :
  ∃ (linkResults : list LinkPayload) recs w',
    Titles [] ∈ linkResults ∧ Titles ["X"; "A"; "Y"] ∈ linkResults ∧
    getRecommendations visited_AB api_A_fails eighths 4 idle = (Normal recs, w') ∧
    title <$> recs ≡ₚ ["X"; "Y"] ∧ error w' = None ∧ loading w' = false.
Proof.
  destruct (C7_link_failure_yields_no_links visited_AB api_A_fails eighths 4 idle)
    as (sources & linkResults & w1 & w2 & Hsample & Hlinks & _ & _ & _ & Hall).
  vm_compute in Hsample. injection Hsample as <- <-.
  vm_compute in Hlinks. injection Hlinks as Hresults _.
  destruct Hall as (pool & shuffled & w3 & recs & w' & _ & _ & _ & _ & Hrun & Herr & Hload).
  { rewrite <- Hresults. intros Hin.
    repeat (apply elem_of_cons in Hin as [Hin|Hin]; [discriminate|]).
    by apply elem_of_nil in Hin. }
  exists linkResults, recs, w'. rewrite <- Hresults.
  split; [apply list_elem_of_further, list_elem_of_here|].
  split; [apply list_elem_of_here|].
  split; [exact Hrun|]. split; [|split; [exact Herr|exact Hload]].
  vm_compute in Hrun. injection Hrun as <- _.
  refine (bool_decide_unpack _ _). vm_compute. exact I.
Defined.

(** ** A call and the state it starts from *)


